(** * Roket Video Maker: the backoff executor and the batch runner

  Two functions of the repository carry its coordination logic:

  - [retryWithBackoff] (src/api.ts, lines 18-41), which runs one
    asynchronous operation and retries it with a doubling delay;
  - [runWithConcurrency] (ui module, lines 58-70), which admits a list of
    promise-returning tasks through a sliding window of pending promises.

  Both are embedded below.  JavaScript numbers that the code uses as
  counters and delays ([attempt], [retries], [delay], [limit],
  [executing.size]) are integers of [Z]; a callback is taken at its
  TypeScript type: a [() => Promise<T>] returns a promise, which may
  reject, and a [(...) => void] observer returns. *)

From stdpp Require Import gmap list strings.

Local Open Scope Z_scope.

(** ** The backoff executor *)

Module Backoff.

Section Executor.

(** [T] is the type of the values the operation produces, [Err] the type
    of the values it throws, [World] whatever the operation and the
    observer read and write. *)
Context {T Err World : Type}.

(** What [await fn()] gives at one attempt. *)
Inductive Attempt :=
| Returned (v : T)
| Threw (e : Err).

(** A value leaving the function through [throw]: either the value caught
    from the operation, rethrown as it is ([throw error], line 30), or the
    error object the function builds itself (line 40). *)
Inductive Thrown :=
| Caught (e : Err)
| NewError (msg : string).

(** How the returned promise settles. *)
Inductive Settled :=
| Resolve (v : T)
| Reject (x : Thrown).

(** What the function does that a caller can observe, in order. *)
Inductive Event :=
| Invoked (attempt : Z) (r : Attempt)
| Notified (attempt : Z) (e : Err) (delay : Z)
| Slept (delay : Z).

Record Run := mkRun {
  outcome : Settled;
  world : World;
  events : list Event
}.

(** The operation, and what happens to the world while the function is
    suspended in [setTimeout(resolve, delay)]. *)
Variable fn : World → Attempt * World.
Variable sleep : Z → World → World.

Definition Observer := Z → Err → Z → World → World.

(** [if (onRetry) { onRetry(attempt, error, delay); }] *)
Definition notify (onRetry : option Observer) (attempt : Z) (e : Err)
    (delay : Z) (w : World) (log : list Event) : World * list Event :=
  match onRetry with
  | Some cb => (cb attempt e delay w, log ++ [Notified attempt e delay])
  | None => (w, log)
  end.

(** The [while (attempt <= retries)] loop of lines 25-39 and the [throw]
    after it, with the local variables [attempt] and [delay] as
    arguments.  [fuel] bounds the number of times the loop test is
    evaluated; [None] means the bound was too small. *)
Fixpoint retry_loop (fuel : nat) (retries : Z) (onRetry : option Observer)
    (attempt delay : Z) (w : World) (log : list Event) : option Run :=
  match fuel with
  | O => None
  | S fuel' =>
      if attempt <=? retries then
        match fn w with
        | (Returned v, w1) =>
            Some (mkRun (Resolve v) w1 (log ++ [Invoked attempt (Returned v)]))
        | (Threw e, w1) =>
            let log1 := log ++ [Invoked attempt (Threw e)] in
            if attempt =? retries then
              Some (mkRun (Reject (Caught e)) w1 log1)
            else
              let '(w2, log2) := notify onRetry attempt e delay w1 log1 in
              let w3 := sleep delay w2 in
              retry_loop fuel' retries onRetry
                (attempt + 1) (delay * 2) w3 (log2 ++ [Slept delay])
        end
      else
        Some (mkRun (Reject (NewError "Max retries reached")) w log)
  end.

(** [retryWithBackoff(fn, retries = 3, delay = 1000, onRetry?)]: an
    argument left out is [None]. *)
Definition retryWithBackoff (retries delay : option Z)
    (onRetry : option Observer) (w : World) : option Run :=
  let retries := default 3 retries in
  let delay := default 1000 delay in
  retry_loop (S (Z.to_nat retries)) retries onRetry 1 delay w [].

(** Observations on a run. *)
Definition is_invoked (ev : Event) : bool :=
  match ev with Invoked _ _ => true | _ => false end.

Definition invocations (r : Run) : nat :=
  length (filter (λ ev, is_invoked ev = true) (events r)).

Definition is_success (ev : Event) : bool :=
  match ev with Invoked _ (Returned _) => true | _ => false end.

Definition notified_delay (ev : Event) : option Z :=
  match ev with Notified _ _ d => Some d | _ => None end.

Definition notifications (r : Run) : list Z :=
  omap notified_delay (events r).

End Executor.

End Backoff.

(** ** The batch runner *)

Module Batch.

Section Runner.

(** [Err] is the type of the values a task's promise can reject with. *)
Context {Err : Type}.

(** How a promise settles.  The runner never looks at the value of a
    fulfilled promise, so none is carried. *)
Inductive Settlement :=
| Fulfils
| Rejects (e : Err).

(** A task is a [() => Promise<any>].  All the runner can observe of it is
    that calling it yields a pending promise and how that promise settles
    later on; when it settles is up to the schedule (see [Choice]), and a
    promise that stays pending is one the schedule never picks.  So a task
    is given as the settlement of its promise. *)
Local Abbreviation Task := Settlement.

(** Tasks are told apart by their position in the array. *)
Inductive Event :=
| Started (j : nat)
| Finished (j : nat) (r : Settlement).

(** The two places where the function is suspended: line 66,
    [await Promise.race(executing)], and line 69,
    [await Promise.all(Array.from(executing))]. *)
Inductive Await := Race | All.

(** Where the function is.  It is [Waiting] while the awaited promise is
    pending, [Woken] once that promise has settled and the continuation
    is queued, and [Resolved] or [Rejected] once its own promise has
    settled. *)
Inductive Control :=
| Waiting (a : Await)
| Woken (a : Await) (r : Settlement)
| Resolved
| Rejected (e : Err).

(** [todo] is what the [for ... of] has not reached yet and [next] the
    position of its first element; [executing] is the Set of line 59, each
    promise [task().finally(...)] under the position of its task and
    carried with the way it will settle; [trace] has the newest event
    first. *)
Record State := mkState {
  todo : list Task;
  next : nat;
  executing : gmap nat Task;
  ctl : Control;
  trace : list Event
}.

Variable limit : Z.

(** Lines 60-69, from the head of the [for] up to the next [await]: this
    stretch runs without interruption.  A task is called and its promise
    added (lines 61-64); if the Set has reached [limit] the function
    suspends on the race (lines 65-66); when the tasks are used up it
    suspends on [Promise.all] of what is left, which for an empty array is
    fulfilled already. *)
Fixpoint loop (tasks : list Task) (i : nat) (ex : gmap nat Task)
    (tr : list Event) : State :=
  match tasks with
  | [] =>
      mkState [] i ex
        (if decide (ex = ∅) then Woken All Fulfils else Waiting All) tr
  | task :: rest =>
      let ex' := <[i := task]> ex in
      let tr' := Started i :: tr in
      if limit <=? Z.of_nat (size ex') then
        mkState rest (S i) ex' (Waiting Race) tr'
      else
        loop rest (S i) ex' tr'
  end.

(** The call itself: the state in which the caller gets the promise. *)
Definition runWithConcurrency (tasks : list Task) : State :=
  loop tasks 0%nat ∅ [].

(** What the settling of promise [j] with [r] does to the suspended
    function.  A race settles as its first promise does.  [Promise.all]
    rejects with the first rejection and is fulfilled when nothing is
    left pending in [ex], the Set after the deletion. *)
Definition wake (c : Control) (r : Settlement) (ex : gmap nat Task)
    : Control :=
  match c with
  | Waiting Race => Woken Race r
  | Waiting All =>
      match r with
      | Rejects e => Woken All (Rejects e)
      | Fulfils => if decide (ex = ∅) then Woken All Fulfils else Waiting All
      end
  | _ => c
  end.

(** The promise of task [j] settles: the [finally] callback deletes it
    from the Set (line 62), then whoever awaits it is told. *)
Definition settle (j : nat) (s : State) : option State :=
  match executing s !! j with
  | None => None
  | Some r =>
      let ex' := delete j (executing s) in
      Some (mkState (todo s) (next s) ex' (wake (ctl s) r ex')
              (Finished j r :: trace s))
  end.

(** The continuation of the function runs: after a fulfilled race the
    [for] goes on; after a fulfilled [Promise.all] the function returns;
    a rejected [await] throws, and nothing catches it. *)
Definition resume (s : State) : option State :=
  match ctl s with
  | Woken Race Fulfils =>
      Some (loop (todo s) (next s) (executing s) (trace s))
  | Woken All Fulfils =>
      Some (mkState (todo s) (next s) (executing s) Resolved (trace s))
  | Woken _ (Rejects e) =>
      Some (mkState (todo s) (next s) (executing s) (Rejected e) (trace s))
  | _ => None
  end.

(** What the event loop does next. *)
Inductive Choice :=
| Settle (j : nat)
| Resume.

Definition step (c : Choice) (s : State) : option State :=
  match c with
  | Settle j => settle j s
  | Resume => resume s
  end.

Fixpoint run (cs : list Choice) (s : State) : option State :=
  match cs with
  | [] => Some s
  | c :: cs' =>
      match step c s with
      | Some s' => run cs' s'
      | None => None
      end
  end.

Definition reachable (tasks : list Task) (s : State) : Prop :=
  ∃ cs, run cs (runWithConcurrency tasks) = Some s.

(** Nothing is left to happen. *)
Definition quiescent (s : State) : Prop := ∀ c, step c s = None.

(** Reading a trace. *)
Definition delta (ev : Event) : Z :=
  match ev with
  | Started _ => 1
  | Finished _ _ => -1
  end.

(** The number of tasks started and not yet finished, at the instant
    after the events of [tr]. *)
Fixpoint inflight (tr : list Event) : Z :=
  match tr with
  | [] => 0
  | ev :: tr' => delta ev + inflight tr'
  end.

Definition started_job (ev : Event) : option nat :=
  match ev with Started j => Some j | _ => None end.

Definition finished_job (ev : Event) : option nat :=
  match ev with Finished j _ => Some j | _ => None end.

Definition starts (tr : list Event) : list nat := omap started_job tr.
Definition finishes (tr : list Event) : list nat := omap finished_job tr.

(** The tasks in the state started, not yet finished. *)
Definition running (tr : list Event) : list nat :=
  filter (λ j, j ∉ finishes tr) (starts tr).

(** No promise of the batch rejects. *)
Definition never_rejects (tasks : list Task) : Prop :=
  Forall (λ t, t = Fulfils) tasks.

(** An upper bound on the number of steps still possible. *)
Definition rank (c : Control) : nat :=
  match c with
  | Waiting Race | Woken Race _ => 2
  | Waiting All | Woken All _ => 1
  | Resolved | Rejected _ => 0
  end.

Definition measure (s : State) : nat :=
  (3 * length (todo s) + 2 * size (executing s) + rank (ctl s))%nat.

(** The width of the window the admission test gives: the test of line 65
    runs after the promise was added, when the Set has one element at
    least, so a [limit] below 1 admits as 1 does. *)
Definition window : Z := Z.max limit 1.

(** The traces the runner can leave for the array [tasks]: a task is
    started at the position after the last one started, and only while
    the window has room; a task that finishes was started, has not
    finished before, and settles as [tasks] says. *)
Inductive valid (tasks : list Task) : list Event → Prop :=
| valid_nil : valid tasks []
| valid_start tr :
    valid tasks tr →
    inflight tr < window →
    valid tasks (Started (length (starts tr)) :: tr)
| valid_finish tr j r :
    valid tasks tr →
    (j < length (starts tr))%nat →
    j ∉ finishes tr →
    tasks !! j = Some r →
    valid tasks (Finished j r :: tr).

(** A rejection the function has seen is the rejection of some task. *)
Definition caused (r : Settlement) (tr : list Event) : Prop :=
  match r with
  | Fulfils => True
  | Rejects e => ∃ j, Finished j (Rejects e) ∈ tr
  end.

(** What holds of the Set and of the trace at each control point. *)
Definition ctl_inv (s : State) : Prop :=
  match ctl s with
  | Waiting Race => executing s ≠ ∅
  | Woken Race r => inflight (trace s) < window ∧ caused r (trace s)
  | Waiting All => todo s = [] ∧ executing s ≠ ∅
  | Woken All Fulfils | Resolved => todo s = [] ∧ executing s = ∅
  | Woken All (Rejects e) | Rejected e => caused (Rejects e) (trace s)
  end.

(** The invariant of the reachable states. *)
Record Inv (tasks : list Task) (s : State) : Prop := mkInv {
  inv_valid : valid tasks (trace s);
  inv_next : next s = length (starts (trace s));
  inv_todo : todo s = drop (next s) tasks;
  inv_bound : (next s ≤ length tasks)%nat;
  inv_exec : ∀ j r,
    (executing s !! j = Some r) ↔
    ((j < next s)%nat ∧ (j ∉ finishes (trace s)) ∧ tasks !! j = Some r);
  inv_size : Z.of_nat (size (executing s)) = inflight (trace s);
  inv_ctl : ctl_inv s
}.

End Runner.

End Batch.

(** ** JavaScript strings *)

From Stdlib Require Ascii String.
From stdpp Require pretty.

(** A string is its sequence of UTF-16 code units. *)
Module Js.

(** A literal of the source; the literals used below are ASCII. *)
Definition lit (s : string) : list N :=
  Ascii.N_of_ascii <$> String.list_ascii_of_string s.

(** A string in a condition: the empty string is falsy, [undefined] is
    taken as the empty string where the code only tests or defaults it. *)
Definition truthy (s : list N) : bool :=
  match s with
  | [] => false
  | _ :: _ => true
  end.

(** [a || b] on strings. *)
Definition or_else (a b : list N) : list N :=
  if truthy a then a else b.

Fixpoint starts_with (needle s : list N) : bool :=
  match needle, s with
  | [], _ => true
  | _ :: _, [] => false
  | a :: needle', b :: s' => (a =? b)%N && starts_with needle' s'
  end.

(** [s.includes(needle)] *)
Fixpoint includes (needle s : list N) : bool :=
  starts_with needle s ||
  match s with
  | [] => false
  | _ :: s' => includes needle s'
  end.

(** [s.split(sep)] for a separator of one code unit: the pieces between
    the separators, of which there is always one at least. *)
Fixpoint split_on (sep : N) (s : list N) : list (list N) :=
  match s with
  | [] => [[]]
  | c :: s' =>
      if (c =? sep)%N then [] :: split_on sep s'
      else
        match split_on sep s' with
        | piece :: pieces => (c :: piece) :: pieces
        | [] => [[c]]
        end
  end.

(** The code units [String.prototype.trim] strips: WhiteSpace (TAB, VT, FF,
    SP, NBSP, ZWNBSP and the category Zs) and LineTerminator (LF, CR, LS,
    PS) of ECMAScript. *)
Definition is_space (c : N) : bool :=
  ((c =? 0x09) || (c =? 0x0A) || (c =? 0x0B) || (c =? 0x0C) || (c =? 0x0D) ||
   (c =? 0x20) || (c =? 0xA0) || (c =? 0x1680) ||
   ((0x2000 <=? c) && (c <=? 0x200A)) ||
   (c =? 0x2028) || (c =? 0x2029) || (c =? 0x202F) || (c =? 0x205F) ||
   (c =? 0x3000) || (c =? 0xFEFF))%N.

Fixpoint trim_start (s : list N) : list N :=
  match s with
  | [] => []
  | c :: s' => if is_space c then trim_start s' else s
  end.

Definition trim_end (s : list N) : list N :=
  reverse (trim_start (reverse s)).

(** [s.trim()] *)
Definition trim (s : list N) : list N := trim_end (trim_start s).

(** A thrown object, as far as the code looks at it: [error.message]
    (empty when there is none) and [JSON.stringify(error)]. *)
Record Error := mkError {
  message : list N;
  json : list N
}.

(** [new Error(msg)]: the own properties of an [Error] are not enumerable,
    so it is stringified as an empty object. *)
Definition new_Error (msg : list N) : Error :=
  mkError msg (lit "{}").

(** A value that a promise of the backend rejects with, as far as a
    [catch] of the api module looks at it: the [catch] computes
    [JSON.stringify(error)], calls [includes] on the result, and reads
    [error.message].
    - [Readable e] is a value that [JSON.stringify] turns into a text and
      whose [message] can be read: an object, a string, a number, a
      boolean.
    - [Null]: the text is 'null', and reading [message] raises a
      [TypeError].
    - [Undefined] is [undefined], a function or a symbol:
      [JSON.stringify] returns [undefined], and calling [includes] on it
      raises a [TypeError].
    - [BigInt] and [Cyclic], an object that holds itself:
      [JSON.stringify] raises a [TypeError].
    Accessors and [toJSON] methods that throw are left out. *)
Inductive Value :=
| Readable (e : Error)
| Null
| Undefined
| BigInt
| Cyclic (detail : list N).

(** The messages of these [TypeError]s are the engine's own; those of V8
    stand for them here. *)
Definition NULL_MESSAGE : list N :=
  lit "Cannot read properties of null (reading 'message')".
Definition UNDEFINED_INCLUDES : list N :=
  lit "Cannot read properties of undefined (reading 'includes')".
Definition BIGINT_JSON : list N :=
  lit "Do not know how to serialize a BigInt".
Definition CYCLIC_JSON : list N :=
  lit "Converting circular structure to JSON".

(** A [catch (error)] block that throws [classify error] when it gets
    through, applied to the value caught: what it throws. *)
Definition caught (classify : Error → Error) (v : Value) : Error :=
  match v with
  | Readable e => classify e
  | Null => new_Error NULL_MESSAGE
  | Undefined => new_Error UNDEFINED_INCLUDES
  | BigInt => new_Error BIGINT_JSON
  | Cyclic detail => new_Error (CYCLIC_JSON ++ detail)
  end.

(** A [TypeError] raised inside such a [catch]. *)
Definition raised (e : Error) : Prop :=
  e = new_Error NULL_MESSAGE ∨ e = new_Error UNDEFINED_INCLUDES ∨
  e = new_Error BIGINT_JSON ∨ ∃ detail, e = new_Error (CYCLIC_JSON ++ detail).

(** [s.isWellFormed()]: no code unit of [s] is a surrogate without its
    pair. *)
Definition is_high (c : N) : bool := ((0xD800 <=? c) && (c <=? 0xDBFF))%N.
Definition is_low (c : N) : bool := ((0xDC00 <=? c) && (c <=? 0xDFFF))%N.

Fixpoint isWellFormed (s : list N) : bool :=
  match s with
  | [] => true
  | c :: rest =>
      if is_high c then
        match rest with
        | d :: rest' => is_low d && isWellFormed rest'
        | [] => false
        end
      else if is_low c then false
      else isWellFormed rest
  end.

(** What [encodeURIComponent(s)] throws when [s] is not well formed: a
    [URIError].  Its message is the engine's own; the one of V8 stands for
    it here. *)
Definition URIError : Error := new_Error (lit "URI malformed").

(** The decimal digits of an integer, as a template literal prints a
    number that is an integer of less than 22 digits. *)
Definition show (n : Z) : list N := lit (pretty.pretty n).

End Js.

(** ** The state module *)

(** The module-level variables of state.ts that the scene stores, the mode
    switch and the generation calls read or write, and the functions that
    modify them.  A scene object is pushed once, where it is created, and
    reached again only through the array: the array holds the scenes
    themselves. *)
Module State.

Section WithFile.

(** [File] is the type of the [File] objects of the DOM. *)
Context {File : Type}.

Record ImageScene := mkImageScene {
  id : Z;
  prompt : list N
}.

Record Scene := mkScene {
  sid : Z;
  file : option File;
  base64 : option (list N);
  mimeType : option (list N);
  sprompt : list N
}.

(** A [Partial<Scene>]: [None] is a property that is absent. *)
Record ScenePatch := mkPatch {
  p_id : option Z;
  p_file : option (option File);
  p_base64 : option (option (list N));
  p_mimeType : option (option (list N));
  p_prompt : option (list N)
}.

Record Asset := mkAsset {
  url : list N;
  filename : list N
}.

Record Store := mkStore {
  activeMode : list N;
  generatedAssetUrls : list Asset;
  productImageBase64 : list N;
  modelImageBase64 : list N;
  faceImageBase64 : list N;
  imageStoryboardScenes : list ImageScene;
  nextImageSceneId : Z;
  storyboardScenes : list Scene;
  nextSceneId : Z
}.

(** The values the variables are declared with. *)
Definition initial : Store :=
  mkStore (Js.lit "image-studio") [] [] [] [] [] 0 [] 0.

Definition setActiveMode (mode : list N) (st : Store) : Store :=
  mkStore mode (generatedAssetUrls st) (productImageBase64 st)
    (modelImageBase64 st) (faceImageBase64 st) (imageStoryboardScenes st)
    (nextImageSceneId st) (storyboardScenes st) (nextSceneId st).

Definition setGeneratedAssetUrls (assets : list Asset) (st : Store) : Store :=
  mkStore (activeMode st) assets (productImageBase64 st)
    (modelImageBase64 st) (faceImageBase64 st) (imageStoryboardScenes st)
    (nextImageSceneId st) (storyboardScenes st) (nextSceneId st).

Definition setProductImageBase64 (b : list N) (st : Store) : Store :=
  mkStore (activeMode st) (generatedAssetUrls st) b
    (modelImageBase64 st) (faceImageBase64 st) (imageStoryboardScenes st)
    (nextImageSceneId st) (storyboardScenes st) (nextSceneId st).

Definition setModelImageBase64 (b : list N) (st : Store) : Store :=
  mkStore (activeMode st) (generatedAssetUrls st) (productImageBase64 st)
    b (faceImageBase64 st) (imageStoryboardScenes st)
    (nextImageSceneId st) (storyboardScenes st) (nextSceneId st).

Definition setFaceImageBase64 (b : list N) (st : Store) : Store :=
  mkStore (activeMode st) (generatedAssetUrls st) (productImageBase64 st)
    (modelImageBase64 st) b (imageStoryboardScenes st)
    (nextImageSceneId st) (storyboardScenes st) (nextSceneId st).

(** Assignment to the two variables of the image storyboard. *)
Definition setImageStoryboard (scenes : list ImageScene) (next : Z)
    (st : Store) : Store :=
  mkStore (activeMode st) (generatedAssetUrls st) (productImageBase64 st)
    (modelImageBase64 st) (faceImageBase64 st) scenes next
    (storyboardScenes st) (nextSceneId st).

(** Assignment to the two variables of the video storyboard. *)
Definition setStoryboard (scenes : list Scene) (next : Z)
    (st : Store) : Store :=
  mkStore (activeMode st) (generatedAssetUrls st) (productImageBase64 st)
    (modelImageBase64 st) (faceImageBase64 st) (imageStoryboardScenes st)
    (nextImageSceneId st) scenes next.

(** [const x = l.find(p); if (x) <change x in place>] *)
Fixpoint update_first {A : Type} (p : A → bool) (f : A → A) (l : list A)
    : list A :=
  match l with
  | [] => []
  | x :: l' => if p x then f x :: l' else x :: update_first p f l'
  end.

(** [l.find(p)] *)
Fixpoint find {A : Type} (p : A → bool) (l : list A) : option A :=
  match l with
  | [] => None
  | x :: l' => if p x then Some x else find p l'
  end.

Definition addImageStoryboardScene (scene : ImageScene) (st : Store) : Store :=
  setImageStoryboard (imageStoryboardScenes st ++ [scene])
    (nextImageSceneId st) st.

Definition removeImageStoryboardScene (sceneId : Z) (st : Store) : Store :=
  setImageStoryboard
    (filter (λ s, id s ≠ sceneId) (imageStoryboardScenes st))
    (nextImageSceneId st) st.

Definition updateImageStoryboardScenePrompt (sceneId : Z) (p : list N)
    (st : Store) : Store :=
  setImageStoryboard
    (update_first (λ s, id s =? sceneId) (λ s, mkImageScene (id s) p)
       (imageStoryboardScenes st))
    (nextImageSceneId st) st.

(** [return nextImageSceneId++] *)
Definition getNextImageSceneId (st : Store) : Z * Store :=
  (nextImageSceneId st,
   setImageStoryboard (imageStoryboardScenes st) (nextImageSceneId st + 1) st).

Definition resetImageStoryboard (st : Store) : Store :=
  setImageStoryboard [] 0 st.

Definition addStoryboardScene (scene : Scene) (st : Store) : Store :=
  setStoryboard (storyboardScenes st ++ [scene]) (nextSceneId st) st.

Definition removeStoryboardScene (sceneId : Z) (st : Store) : Store :=
  setStoryboard (filter (λ s, sid s ≠ sceneId) (storyboardScenes st))
    (nextSceneId st) st.

(** [Object.assign(scene, data)]: the properties that [data] has replace
    those of [scene]. *)
Definition assign (s : Scene) (d : ScenePatch) : Scene :=
  mkScene (default (sid s) (p_id d)) (default (file s) (p_file d))
    (default (base64 s) (p_base64 d)) (default (mimeType s) (p_mimeType d))
    (default (sprompt s) (p_prompt d)).

Definition updateStoryboardScene (sceneId : Z) (data : ScenePatch)
    (st : Store) : Store :=
  setStoryboard
    (update_first (λ s, sid s =? sceneId) (λ s, assign s data)
       (storyboardScenes st))
    (nextSceneId st) st.

(** [return nextSceneId++] *)
Definition getNextSceneId (st : Store) : Z * Store :=
  (nextSceneId st,
   setStoryboard (storyboardScenes st) (nextSceneId st + 1) st).

Definition resetStoryboard (st : Store) : Store :=
  setStoryboard [] 0 st.

(** *** fileToBase64 *)

(** What the [FileReader] comes back with: [onload] with [reader.result],
    which is a string or not, or [onerror] with its event. *)
Inductive Reading {Ev : Type} :=
| Loaded (result : option (list N))
| ReadError (ev : Ev).

(** What the promise of [fileToBase64] settles with.  [Resolved None] is
    the promise resolved with [undefined]. *)
Inductive Read {Ev : Type} :=
| Resolved (data : option (list N))
| RejectedWith (e : Js.Error)
| RejectedEvent (ev : Ev).

Definition comma : N := 0x2C.

Definition fileToBase64 {Ev : Type} (r : @Reading Ev) : @Read Ev :=
  match r with
  | Loaded (Some result) => Resolved (Js.split_on comma result !! 1%nat)
  | Loaded None =>
      RejectedWith (Js.new_Error (Js.lit "Failed to read file as base64 string."))
  | ReadError ev => RejectedEvent ev
  end.

End WithFile.

End State.

(** ** The handlers of the ui module that write the state *)

Module Ui.

Section WithFile.

Context {File : Type}.

Abbreviation Store := (@State.Store File).

Definition IMAGE_CONCURRENCY_LIMIT : Z := 3.
Definition VIDEO_CONCURRENCY_LIMIT : Z := 2.

(** [clearOtherModeInputs(currentMode)], lines 82-119: the part that
    resets the state of the other modes, lines 105-118. *)
Definition clearOtherModeInputs (currentMode : list N) (st : Store) : Store :=
  let st1 :=
    if decide (currentMode ≠ Js.lit "image-studio" ∧
               currentMode ≠ Js.lit "image-storyboard")
    then State.setFaceImageBase64 []
           (State.setModelImageBase64 []
              (State.setProductImageBase64 [] st))
    else st in
  let st2 :=
    if decide (currentMode ≠ Js.lit "image-storyboard")
    then State.resetImageStoryboard st1 else st1 in
  if decide (currentMode ≠ Js.lit "video-storyboard")
  then State.resetStoryboard st2 else st2.

Inductive Slot := Product | Model | Face.

(** What the user does, as the listeners see it.  A scene id comes from
    the [data-scene-id] of a slot; the file of a scene arrives when it has
    been read, with what the reading gave. *)
Inductive Event :=
| AddImageScene
| RemoveImageScene (sceneId : Z)
| InputImageScene (sceneId : Z) (value : list N)
| AddScene
| RemoveScene (sceneId : Z)
| SceneFileRead (sceneId : Z) (f : File) (base64 : option (list N))
    (mime : list N)
| InputScene (sceneId : Z) (value : list N)
| SidebarClick (mode : list N)
| FileReady (slot : Slot) (base64 : list N).

Definition handle (ev : Event) (st : Store) : Store :=
  match ev with
  | AddImageScene =>
      (* lines 667-669 *)
      let '(sceneId, st1) := State.getNextImageSceneId st in
      State.addImageStoryboardScene (State.mkImageScene sceneId []) st1
  | RemoveImageScene sceneId =>
      (* line 691 *)
      State.removeImageStoryboardScene sceneId st
  | InputImageScene sceneId value =>
      (* line 707 *)
      State.updateImageStoryboardScenePrompt sceneId value st
  | AddScene =>
      (* lines 364-365 *)
      let '(sceneId, st1) := State.getNextSceneId st in
      State.addStoryboardScene (State.mkScene sceneId None None None []) st1
  | RemoveScene sceneId =>
      (* line 392 *)
      State.removeStoryboardScene sceneId st
  | SceneFileRead sceneId f base64 mime =>
      (* line 413 *)
      State.updateStoryboardScene sceneId
        (State.mkPatch None (Some (Some f)) (Some base64) (Some (Some mime))
           None) st
  | InputScene sceneId value =>
      (* line 428 *)
      State.updateStoryboardScene sceneId
        (State.mkPatch None None None None (Some value)) st
  | SidebarClick mode =>
      (* lines 443, 471, 478 *)
      let st1 := State.setActiveMode mode st in
      State.setGeneratedAssetUrls []
        (clearOtherModeInputs (State.activeMode st1) st1)
  | FileReady Product base64 => State.setProductImageBase64 base64 st
  | FileReady Model base64 => State.setModelImageBase64 base64 st
  | FileReady Face base64 => State.setFaceImageBase64 base64 st
  end.

(** The state after a sequence of events, from the state the module is
    loaded with. *)
Definition after (evs : list Event) : Store :=
  foldl (λ st ev, handle ev st) State.initial evs.

(** The ids of a store: pairwise different and below the counter. *)
Definition fresh_ids (ids : list Z) (next : Z) : Prop :=
  NoDup ids ∧ Forall (λ i, i < next) ids.

Definition well_formed (st : Store) : Prop :=
  fresh_ids (State.id <$> State.imageStoryboardScenes st)
    (State.nextImageSceneId st) ∧
  fresh_ids (State.sid <$> State.storyboardScenes st) (State.nextSceneId st).

(** An event that does not reset the video storyboard: any but a click in
    the sidebar on a mode other than 'video-storyboard' (lines 115-118). *)
Definition keeps_storyboard (ev : Event) : Prop :=
  match ev with
  | SidebarClick mode => mode = Js.lit "video-storyboard"
  | _ => True
  end.

(** The scenes a generation run takes up: lines 243 and 302. *)
Definition imageScenesToGenerate (st : Store) : list State.ImageScene :=
  filter (λ scene, Js.trim (State.prompt scene) ≠ [])
    (State.imageStoryboardScenes st).

Definition videoScenesToGenerate (st : Store) : list State.Scene :=
  filter (λ sc, is_Some (State.file sc) ∧ State.sprompt sc ≠ [])
    (State.storyboardScenes st).

End WithFile.

End Ui.

(** ** The voice-over module: what is queued *)

Module VoiceOver.

(** [state.voiceOverInputMode], ['single' | 'mass']. *)
Inductive InputMode := Single | Mass.

Definition AUDIO_CONCURRENCY_LIMIT : Z := 3.

Definition newline : N := 0x0A.

(** Lines 82-84. *)
Definition scriptsToProcess (mode : InputMode) (script : list N)
    : list (list N) :=
  match mode with
  | Mass => filter (λ line, Js.trim line ≠ []) (Js.split_on newline script)
  | Single => [script]
  end.

(** How [runVoiceOverGeneration] starts, lines 74-89: it leaves with
    'Please enter a script.', or with 'Please enter at least one line of
    script.', or goes on to queue one generation per script. *)
Inductive Prepared :=
| NoScript
| NoLines
| Queued (scripts : list (list N)).

Definition prepare (mode : InputMode) (value : list N) : Prepared :=
  let script := Js.trim value in
  if Js.truthy script then
    let scripts := scriptsToProcess mode script in
    if decide (length scripts = 0%nat) then NoLines else Queued scripts
  else NoScript.

End VoiceOver.

(** ** The api module: image and video generation *)

Module Api.

Section WithWorld.

(** [File] is the type of the DOM's [File] objects (the state has some),
    [W] whatever the backend, the clock and the page are. *)
Context {File W : Type}.

Abbreviation Store := (@State.Store File).

(** A part of a request: [{ inlineData: { mimeType: 'image/png', data } }]
    or [{ text }]. *)
Inductive ReqPart :=
| InlineData (data : list N)
| Text (text : list N).

(** A part of a response: its [inlineData], when it has one, with its
    [data], and its [text], empty when it has none. *)
Record Part := mkPart {
  inlineData : option (list N);
  text : list N
}.

(** A candidate of a response: its [content.parts], or, when [content] or
    [parts] is missing, the message of the [TypeError] that reading them
    raises. *)
Inductive Candidate :=
| Parts (ps : list Part)
| Malformed (msg : list N).

Record Response := mkResponse {
  candidates : option (list Candidate);
  response_text : list N
}.

(** An argument that can be left out or be [null]. *)
Inductive Optional :=
| Undefined
| Null
| Str (s : list N).

(** What a caller can observe of a call, in order. *)
Inductive Event :=
| Requested (parts : list ReqPart)
| VideoRequested (prompt : list N)
| Shown (html : list N)
| Waited (ms : Z)
| Polled
| Fetched (url : list N).

Inductive Result {A : Type} :=
| Ok (a : A)
| Failed (e : Js.Error).

(** The backend ([ai.models.generateContent], which resolves with a
    response or rejects with any value), the timer, the clock and the
    state module.  The functions make their client with
    [new GoogleGenAI(...)] before their [try]: the constructor is taken to
    return. *)
Variable generateContent : list ReqPart → W → (Response + Js.Value) * W.
Variable sleep : Z → W → W.
Variable now : W → Z.
Variable store : W → Store.

Definition MAX_RETRIES : Z := 1.

Definition QUOTA_IMAGE : list N :=
  Js.lit "Image generation failed: API quota exceeded. Please check your account limits.".

Definition quota (errorString : list N) : bool :=
  Js.includes (Js.lit "quota exceeded") errorString ||
  Js.includes (Js.lit "RESOURCE_EXHAUSTED") errorString.

(** The [catch] of [generateImageWithPrompt], lines 116-126, for a value
    it can read; [image_catch] is the block for any value caught. *)
Definition image_failure (error : Js.Error) : Js.Error :=
  let errorString := Js.json error in
  Js.new_Error
    (if quota errorString then QUOTA_IMAGE
     else if Js.truthy (Js.message error)
          then Js.lit "Error: " ++ Js.message error
          else Js.lit "An error occurred during image generation.").

Definition image_catch (error : Js.Value) : Js.Error :=
  Js.caught image_failure error.

(** Lines 69-85: the parts of the request. *)
Definition image_parts (st : Store) (prompt aspectRatio : list N)
    (currentModelBase64 : list N) (productImageBase64 : Optional)
    : list ReqPart :=
  let productImg :=
    match productImageBase64 with
    | Undefined => State.productImageBase64 st
    | Null => []
    | Str s => s
    end in
  (if Js.truthy productImg then [InlineData productImg] else []) ++
  (if Js.truthy currentModelBase64 then [InlineData currentModelBase64]
   else []) ++
  (if Js.truthy (State.faceImageBase64 st) &&
      bool_decide (State.activeMode st = Js.lit "image-studio")
   then [InlineData (State.faceImageBase64 st)] else []) ++
  [Text (Js.lit "The composition of the final image should be suitable for a "
         ++ aspectRatio ++ Js.lit " aspect ratio. " ++ prompt)].

Definition has_inlineData (p : Part) : bool :=
  match inlineData p with Some _ => true | None => false end.

Definition has_text (p : Part) : bool := Js.truthy (text p).

Definition image_asset (data : list N) (stamp : Z) : State.Asset :=
  State.mkAsset (Js.lit "data:image/png;base64," ++ data)
    (Js.lit "generated-image-" ++ Js.show stamp ++ Js.lit ".png").

Definition RETRY_NOTE : list N :=
  [10; 10]%N ++
  Js.lit "(Catatan untuk AI: Pastikan outputnya adalah gambar, bukan teks.)".

(** [generateImageWithPrompt], lines 65-127.  [fuel] bounds the depth of
    the calls of the function to itself; [None] means the bound was too
    small. *)
Fixpoint generateImageWithPrompt_from (fuel : nat) (prompt aspectRatio : list N)
    (currentModelBase64 : list N) (productImageBase64 : Optional)
    (retryCount : Z) (w : W) (log : list Event)
    : option (@Result State.Asset * W * list Event) :=
  match fuel with
  | O => None
  | S fuel' =>
      let parts := image_parts (store w) prompt aspectRatio
                     currentModelBase64 productImageBase64 in
      let log1 := log ++ [Requested parts] in
      match generateContent parts w with
      | (inr error, w1) => Some (Failed (image_catch error), w1, log1)
      | (inl response, w1) =>
          match candidates response with
          | None | Some [] =>
              let errorMessage :=
                Js.or_else (response_text response)
                  (Js.lit "No valid candidates returned from API. The prompt may have been blocked.") in
              Some (Failed (image_failure (Js.new_Error errorMessage)), w1, log1)
          | Some (Malformed msg :: _) =>
              Some (Failed (image_failure (Js.new_Error msg)), w1, log1)
          | Some (Parts ps :: _) =>
              let imagePart := State.find has_inlineData ps in
              let textPart := State.find has_text ps in
              match imagePart ≫= inlineData, textPart with
              | Some base64Image, _ =>
                  Some (Ok (image_asset base64Image (now w1)), w1, log1)
              | None, Some tp =>
                  if retryCount <? MAX_RETRIES then
                    let log2 :=
                      log1 ++ [Shown (Js.lit "<p>Model returned text. Modifying prompt and retrying...</p>")] in
                    let modifiedPrompt := prompt ++ RETRY_NOTE in
                    let w2 := sleep 1000 w1 in
                    match generateImageWithPrompt_from fuel' modifiedPrompt
                            aspectRatio currentModelBase64 productImageBase64
                            (retryCount + 1) w2 (log2 ++ [Waited 1000]) with
                    | Some (Ok a, w3, log3) => Some (Ok a, w3, log3)
                    | Some (Failed e, w3, log3) =>
                        Some (Failed (image_failure e), w3, log3)
                    | None => None
                    end
                  else
                    Some (Failed (image_failure (Js.new_Error (text tp))),
                          w1, log1)
              | None, None =>
                  Some (Failed (image_failure (Js.new_Error
                          (Js.lit "No image generated. The prompt might have been blocked."))),
                        w1, log1)
              end
          end
      end
  end.

(** The call, [retryCount = 0] when left out. *)
Definition generateImageWithPrompt (prompt aspectRatio : list N)
    (currentModelBase64 : list N) (productImageBase64 : Optional)
    (retryCount : option Z) (w : W) (log : list Event)
    : option (@Result State.Asset * W * list Event) :=
  let retryCount := default 0 retryCount in
  generateImageWithPrompt_from (S (Z.to_nat (MAX_RETRIES - retryCount)))
    prompt aspectRatio currentModelBase64 productImageBase64 retryCount w log.

Definition requests (log : list Event) : list (list ReqPart) :=
  omap (λ ev, match ev with Requested parts => Some parts | _ => None end) log.

Definition waits (log : list Event) : list Z :=
  omap (λ ev, match ev with Waited ms => Some ms | _ => None end) log.

Definition shown (log : list Event) : list (list N) :=
  omap (λ ev, match ev with Shown html => Some html | _ => None end) log.

Definition polls (log : list Event) : nat :=
  length (omap (λ ev, match ev with Polled => Some () | _ => None end) log).

(** A request as [generateImageWithPrompt] builds it: images, none of
    them empty and three at most, then one text. *)
Definition request_shape (parts : list ReqPart) : Prop :=
  ∃ images t,
    parts = (InlineData <$> images) ++ [Text t] ∧
    Forall (λ data, data ≠ []) images ∧ (length images ≤ 3)%nat.

(** A thrown value that is a fresh [Error] with one of the three messages
    of the [catch]. *)
Definition reported (e : Js.Error) : Prop :=
  Js.json e = Js.lit "{}" ∧
  (Js.message e = QUOTA_IMAGE ∨
   (∃ m, m ≠ [] ∧ Js.message e = Js.lit "Error: " ++ m) ∨
   Js.message e = Js.lit "An error occurred during image generation.").

(** A [TypeError] of the [catch] itself, for a value that the backend
    rejected with and that the [catch] cannot read. *)
Definition unreadable_rejection (e : Js.Error) : Prop :=
  ∃ parts w v w',
    generateContent parts w = (inr v, w') ∧
    (∀ e0, v ≠ Js.Readable e0) ∧ e = image_catch v.

(** What a call started with [retryCount] has added when the log has
    grown from [log] to [log']: [k + 1] requests, with a wait of one second
    before each but the first, and [k] at most the retries left. *)
Definition image_post (retryCount : Z) (log : list Event)
    (r : @Result State.Asset) (log' : list Event) : Prop :=
  ∃ new k,
    log' = log ++ new ∧
    length (requests new) = S k ∧
    Z.of_nat k ≤ Z.max 0 (MAX_RETRIES - retryCount) ∧
    waits new = replicate k 1000 ∧
    Forall request_shape (requests new) ∧
    (∀ e, r = Failed e → reported e ∨ unreadable_rejection e).

(** *** generateVideoForScene *)

(** A long-running operation, as far as the code looks at it: [done]; the
    [response?.generatedVideos?.[0]?.video?.uri], empty when a link of the
    chain is missing; and [error], when there is one, with its [message],
    empty when it has none. *)
Record Operation := mkOperation {
  done : bool;
  uri : list N;
  op_error : option (list N)
}.

(** [ai.models.generateVideos], [ai.operations.getVideosOperation], the
    [fetch] of the video up to [URL.createObjectURL], and
    [process.env.API_KEY], empty when it is not set. *)
Variable generateVideos :
  list N → option (list N) → option (list N) → list N → W →
  (Operation + Js.Value) * W.
Variable getVideosOperation : Operation → W → (Operation + Js.Value) * W.
Variable fetchObjectUrl : list N → W → (list N + Js.Value) * W.
Variable apiKey : list N.

Definition progressMessages : list (list N) :=
  [Js.lit "Contacting the video generation servers...";
   Js.lit "Warming up the AI model...";
   Js.lit "Analyzing the scene and prompt...";
   Js.lit "Rendering video frames...";
   Js.lit "Almost there, finalizing the video..."].

Definition progress_html (messageIndex : nat) : list N :=
  Js.lit "<p>" ++
  default [] (progressMessages !! (messageIndex `mod` length progressMessages)%nat)
  ++ Js.lit " (This may take a few minutes)</p>".

Definition quote : N := 0x22.

Definition BILLING_MESSAGE : list N :=
  Js.lit "The configured API key is invalid or missing required permissions (e.g., billing not enabled). Please check the environment configuration."
  ++ Js.lit " <a href=" ++ [quote]
  ++ Js.lit "https://ai.google.dev/gemini-api/docs/billing" ++ [quote]
  ++ Js.lit " target=" ++ [quote] ++ Js.lit "_blank" ++ [quote]
  ++ Js.lit " style=" ++ [quote]
  ++ Js.lit "color: var(--accent-bright); text-decoration: underline;"
  ++ [quote] ++ Js.lit ">Learn more about billing.</a>".

(** The [catch] of [generateVideoForScene], lines 264-280, for a value it
    can read; [video_catch] is the block for any value caught. *)
Definition video_failure (sceneId : Z) (error : Js.Error) : Js.Error :=
  let errorString := Js.json error in
  if Js.includes (Js.lit "Requested entity was not found") errorString then
    Js.new_Error BILLING_MESSAGE
  else
    Js.new_Error
      (if quota errorString then
         Js.lit "Video generation failed for Scene " ++ Js.show sceneId ++
         Js.lit ": API quota has been exceeded. Please check your Google project billing or usage limits."
       else if Js.truthy (Js.message error) then
         Js.lit "Error for Scene " ++ Js.show sceneId ++ Js.lit ": " ++
         Js.message error
       else
         Js.lit "Failed to generate video for Scene " ++ Js.show sceneId ++
         Js.lit ".").

Definition video_catch (sceneId : Z) (error : Js.Value) : Js.Error :=
  Js.caught (video_failure sceneId) error.

(** The [while (!operation.done)] of lines 238-243.  [fuel] bounds the
    number of times the test is evaluated; [None] means the bound was too
    small. *)
Fixpoint poll_loop (fuel : nat) (operation : Operation) (messageIndex : nat)
    (w : W) (log : list Event)
    : option ((Operation + Js.Value) * W * list Event) :=
  match fuel with
  | O => None
  | S fuel' =>
      if done operation then Some (inl operation, w, log)
      else
        let log1 := log ++ [Shown (progress_html messageIndex)] in
        let w1 := sleep 10000 w in
        let log2 := log1 ++ [Waited 10000; Polled] in
        match getVideosOperation operation w1 with
        | (inl operation', w2) =>
            poll_loop fuel' operation' (S messageIndex) w2 log2
        | (inr error, w2) => Some (inr error, w2, log2)
        end
  end.

(** [generateVideoForScene], lines 219-281.  What the [try] throws, the
    [catch] gets: a value the backend rejected with, or an [Error] of the
    function's own. *)
Definition generateVideoForScene (fuel : nat) (scene : State.Scene (File := File))
    (prompt aspectRatio : list N) (w : W) (log : list Event)
    : option (@Result State.Asset * W * list Event) :=
  let failed error w' log' :=
    Some (Failed (video_catch (State.sid scene) error), w', log') in
  let log0 := log ++ [VideoRequested prompt] in
  match generateVideos prompt (State.base64 scene) (State.mimeType scene)
          aspectRatio w with
  | (inr error, w1) => failed error w1 log0
  | (inl operation, w1) =>
      match poll_loop fuel operation 0 w1 log0 with
      | None => None
      | Some (inr error, w2, log2) => failed error w2 log2
      | Some (inl operation, w2, log2) =>
          if Js.truthy (uri operation) then
            if Js.truthy apiKey then
              let url := uri operation ++ Js.lit "&key=" ++ apiKey in
              match fetchObjectUrl url w2 with
              | (inl videoUrl, w3) =>
                  Some (Ok (State.mkAsset videoUrl
                              (Js.lit "storyboard-scene-" ++
                               Js.show (State.sid scene) ++ Js.lit "-" ++
                               Js.show (now w3) ++ Js.lit ".mp4")),
                        w3, log2 ++ [Fetched url])
              | (inr error, w3) => failed error w3 (log2 ++ [Fetched url])
              end
            else
              failed (Js.Readable (Js.new_Error
                        (Js.lit "API Key not found for fetching video.")))
                w2 log2
          else
            match op_error operation with
            | Some msg =>
                failed (Js.Readable (Js.new_Error
                          (Js.lit "Video generation failed: " ++
                           Js.or_else msg (Js.lit "Unknown error"))))
                  w2 log2
            | None =>
                failed (Js.Readable (Js.new_Error
                          (Js.lit "Video generation finished but no video URI was returned.")))
                  w2 log2
            end
      end
  end.

End WithWorld.

End Api.

(** ** Reading a run of the backoff executor *)

Module BackoffTrace.

Definition slept_delay {T Err : Type} (ev : @Backoff.Event T Err)
    : option Z :=
  match ev with Backoff.Slept d => Some d | _ => None end.

(** The delays the executor slept, in order. *)
Definition sleeps {T Err World : Type} (r : @Backoff.Run T Err World)
    : list Z :=
  omap slept_delay (Backoff.events r).

Definition notified_attempt {T Err : Type} (ev : @Backoff.Event T Err)
    : option Z :=
  match ev with Backoff.Notified a _ _ => Some a | _ => None end.

(** The attempt numbers the observer was called with, in order. *)
Definition notified_attempts {T Err World : Type}
    (r : @Backoff.Run T Err World) : list Z :=
  omap notified_attempt (Backoff.events r).

(** [delay], [2 * delay], [4 * delay], ... *)
Definition doubling (delay : Z) (n : nat) : list Z :=
  (λ k, delay * 2 ^ Z.of_nat k) <$> seq 0 n.

(** What one pass through the loop adds to the log when the attempt
    failed and was not the last. *)
Definition round {T Err World : Type}
    (onRetry : option (@Backoff.Observer Err World)) (attempt : Z) (e : Err)
    (delay : Z) : list (@Backoff.Event T Err) :=
  Backoff.Invoked attempt (Backoff.Threw e) ::
  (if onRetry is Some _ then [Backoff.Notified attempt e delay] else []) ++
  [Backoff.Slept delay].

End BackoffTrace.

(** ** A scene of the image storyboard: the task of lines 267-292 *)

Module Storyboard.

Section WithBackend.

(** The world is the state module together with [B], whatever the backend,
    the clock and the page are.  An [await] hands the whole world to the
    backend or the timer: the state may have been written by a listener in
    the meantime. *)
Context {File B : Type}.

Abbreviation Store := (@State.Store File).
Abbreviation World := (Store * B)%type.
Abbreviation ApiEvent := (@Api.Event).

Variable generateContent :
  list Api.ReqPart → World → (Api.Response + Js.Value) * World.
Variable sleep : Z → World → World.
Variable now : World → Z.

(** What the task has done so far goes with the world. *)
Abbreviation Machine := (World * list ApiEvent)%type.

(** The operation handed to [retryWithBackoff], line 270: the arguments
    are read when the operation is called, the two images from the state
    and the prompt from the scene object the task holds, which a listener
    may have written meanwhile: [scenePrompt] is what it holds. *)
Definition attempt (scenePrompt : World → list N) (aspectRatio : list N)
    (m : Machine)
    : @Backoff.Attempt State.Asset Js.Error * Machine :=
  let '(w, log) := m in
  match Api.generateImageWithPrompt generateContent sleep now fst
          (scenePrompt w) aspectRatio
          (State.modelImageBase64 (fst w))
          (Api.Str (State.productImageBase64 (fst w))) None w log with
  | Some (Api.Ok a, w', log') => (Backoff.Returned a, (w', log'))
  | Some (Api.Failed e, w', log') => (Backoff.Threw e, (w', log'))
  | None => (Backoff.Threw (Js.new_Error []), m)
  end.

Definition pause (ms : Z) (m : Machine) : Machine :=
  let '(w, log) := m in (sleep ms w, log ++ [Api.Waited ms]).

Definition retrying_html (i : nat) (attempt : Z) : list N :=
  Js.lit "<p>Retrying Scene " ++ Js.show (Z.of_nat i + 1) ++
  Js.lit " (Attempt " ++ Js.show (attempt + 1) ++ Js.lit ")...</p>".

(** The observer of line 270. *)
Definition onRetry (i : nat) (attempt : Z) (_ : Js.Error) (_ : Z)
    (m : Machine) : Machine :=
  let '(w, log) := m in (w, log ++ [Api.Shown (retrying_html i attempt)]).

(** [api.retryWithBackoff(() => api.generateImageWithPrompt(...), 3, 2000,
    (attempt) => ...)] *)
Definition generate (i : nat) (scenePrompt : World → list N)
    (aspectRatio : list N) (m : Machine)
    : option (@Backoff.Run State.Asset Js.Error Machine) :=
  Backoff.retryWithBackoff (attempt scenePrompt aspectRatio) pause
    (Some 3) (Some 2000) (Some (onRetry i)) m.

(** The number of requests sent so far. *)
Definition sent (m : Machine) : Z := Z.of_nat (length (Api.requests m.2)).

(** What the task leaves in its slot of the page: the card of the image,
    built from the asset, or the error paragraph, built from
    [error.message]; or nothing, when the text of the card could not be
    built. *)
Inductive Card :=
| ImageCard (a : State.Asset)
| ErrorCard (message : list N)
| NoCard.

(** [error.message] of what [retryWithBackoff] rejects with. *)
Definition thrown_message (x : @Backoff.Thrown Js.Error) : list N :=
  match x with
  | Backoff.Caught e => Js.message e
  | Backoff.NewError msg => Js.lit msg
  end.

Definition generating_html (i : nat) : list N :=
  Js.lit "<p>Generating Scene " ++ Js.show (Z.of_nat i + 1) ++ Js.lit "...</p>".

Definition pushAsset (a : State.Asset) (w : World) : World :=
  (State.setGeneratedAssetUrls (State.generatedAssetUrls (fst w) ++ [a])
     (fst w), snd w).

(** The task of scene number [i], lines 267-292: how its promise settles,
    the world and the log it leaves, and its card.  Both cards hold
    [encodeURIComponent(scene.prompt)], lines 283 and 289, which throws
    when the prompt is not well formed: in the [try], after the asset has
    been pushed, that leads to the [catch]; in the [catch] it rejects the
    promise of the task.  [None] stands for a bound that was too small in
    [generate]. *)
Definition task (i : nat) (scenePrompt : World → list N)
    (aspectRatio : list N) (m : Machine)
    : option (@Batch.Settlement Js.Error * Machine * Card) :=
  let '(w, log) := m in
  match generate i scenePrompt aspectRatio
          (w, log ++ [Api.Shown (generating_html i)]) with
  | None => None
  | Some run =>
      let '(w1, log1) := Backoff.world run in
      match Backoff.outcome run with
      | Backoff.Resolve result =>
          let w2 := pushAsset result w1 in
          if Js.isWellFormed (scenePrompt w2) then
            Some (Batch.Fulfils, (w2, log1), ImageCard result)
          else
            Some (Batch.Rejects Js.URIError, (w2, log1), NoCard)
      | Backoff.Reject error =>
          if Js.isWellFormed (scenePrompt w1) then
            Some (Batch.Fulfils, (w1, log1),
                  ErrorCard (thrown_message error))
          else
            Some (Batch.Rejects Js.URIError, (w1, log1), NoCard)
      end
  end.

(** The promises of the tasks that [generateImageStoryboard] hands to
    [runWithConcurrency], each task with the world it is started in. *)
Definition settlements
    (jobs : list (nat * (World → list N) * list N * Machine))
    : list (@Batch.Settlement Js.Error) :=
  omap (λ '(i, scenePrompt, aspectRatio, m),
          (λ r, r.1.1) <$> task i scenePrompt aspectRatio m) jobs.

End WithBackend.

End Storyboard.

(** ** Speech: generateAudioFromText and the task of a script *)

Module Audio.

Section WithBackend.

(** The world is the state module together with [B], as for the
    storyboard. *)
Context {File B : Type}.

Abbreviation Store := (@State.Store File).
Abbreviation World := (Store * B)%type.

(** [ai.models.generateContent] with the speech model, given the script
    and the name of the voice; and [state.voiceOverSelectedActor], a
    variable of the state module that the task reads twice. *)
Variable generateSpeech :
  list N → list N → World → (Api.Response + Js.Value) * World.
Variable voiceOverSelectedActor : World → list N.

Definition QUOTA_AUDIO : list N :=
  Js.lit "Audio generation failed: API quota has been exceeded.".

Definition NO_AUDIO : list N :=
  Js.lit "Audio generation failed: No audio data was returned from the API.".

(** The [catch] of [generateAudioFromText], api.ts lines 306-316, for a
    value it can read; [audio_catch] is the block for any value caught. *)
Definition audio_failure (error : Js.Error) : Js.Error :=
  let errorString := Js.json error in
  Js.new_Error
    (if Api.quota errorString then QUOTA_AUDIO
     else if Js.truthy (Js.message error)
          then Js.lit "Error: " ++ Js.message error
          else Js.lit "Failed to generate audio.").

Definition audio_catch (error : Js.Value) : Js.Error :=
  Js.caught audio_failure error.

(** [response.candidates?.[0]?.content?.parts?.[0]]: a link of the chain
    that is missing gives [undefined]. *)
Definition audioPart (response : Api.Response) : option Api.Part :=
  match Api.candidates response with
  | Some (Api.Parts (p :: _) :: _) => Some p
  | _ => None
  end.

(** [generateAudioFromText], api.ts lines 284-317. *)
Definition generateAudioFromText (script voiceName : list N) (w : World)
    : @Api.Result (list N) * World :=
  match generateSpeech script voiceName w with
  | (inr error, w1) => (Api.Failed (audio_catch error), w1)
  | (inl response, w1) =>
      match audioPart response ≫= Api.inlineData with
      | Some data => (Api.Ok data, w1)
      | None => (Api.Failed (audio_failure (Js.new_Error NO_AUDIO)), w1)
      end
  end.

(** What the task of a script leaves in its slot of the page: the script
    with the player and the download link, or the script with the error
    paragraph. *)
Inductive Card :=
| AudioCard (script audioSrc filename : list N)
| ErrorCard (script text : list N).

(** The task of script number [i], voice-over.ts lines 104-134: how its
    promise settles, the world it leaves and its card. *)
Definition task (i : nat) (currentScript : list N) (w : World)
    : @Batch.Settlement Js.Error * World * Card :=
  match generateAudioFromText currentScript (voiceOverSelectedActor w) w with
  | (Api.Ok base64Audio, w1) =>
      let audioSrc := Js.lit "data:audio/mpeg;base64," ++ base64Audio in
      let filename :=
        Js.lit "voice-over-" ++ voiceOverSelectedActor w1 ++ Js.lit "-" ++
        Js.show (Z.of_nat i + 1) ++ Js.lit ".mp3" in
      (Batch.Fulfils,
       Storyboard.pushAsset (State.mkAsset audioSrc filename) w1,
       AudioCard currentScript audioSrc filename)
  | (Api.Failed error, w1) =>
      (Batch.Fulfils, w1,
       ErrorCard currentScript (Js.lit "Error: " ++ Js.message error))
  end.

End WithBackend.

End Audio.

(** ** The backoff executor with any observer

    [Backoff] takes the observer at its TypeScript type, a function that
    returns.  JavaScript does not hold a callback to that: the call of
    line 33 stands in the [catch] block, so what the observer throws
    leaves [retryWithBackoff] at once, after the notification and before
    the sleep.  Here the observer returns or throws. *)

Module Observed.

Section Executor.

Context {T Err World : Type}.

Abbreviation Attempt := (@Backoff.Attempt T Err).
Abbreviation Event := (@Backoff.Event T Err).

Variable fn : World → Attempt * World.
Variable sleep : Z → World → World.

(** What a call of the observer comes to. *)
Inductive Reply :=
| Returns
| Throws (x : Err).

Definition Observer := Z → Err → Z → World → Reply * World.

(** How the function is left: [return] (line 27), [throw error] (line
    30), the throw of the observer (line 33), the [throw] of line 40. *)
Inductive Exit :=
| Return (v : T)
| Rethrow (e : Err)
| FromObserver (x : Err)
| MaxRetries.

Record Run := mkRun {
  exit : Exit;
  world : World;
  events : list Event
}.

(** Lines 25-40, as [Backoff.retry_loop] has them. *)
Fixpoint retry_loop (fuel : nat) (retries : Z) (onRetry : option Observer)
    (attempt delay : Z) (w : World) (log : list Event) : option Run :=
  match fuel with
  | O => None
  | S fuel' =>
      if attempt <=? retries then
        match fn w with
        | (Backoff.Returned v, w1) =>
            Some (mkRun (Return v) w1
                    (log ++ [Backoff.Invoked attempt (Backoff.Returned v)]))
        | (Backoff.Threw e, w1) =>
            let log1 := log ++ [Backoff.Invoked attempt (Backoff.Threw e)] in
            if attempt =? retries then
              Some (mkRun (Rethrow e) w1 log1)
            else
              match onRetry with
              | None =>
                  retry_loop fuel' retries onRetry (attempt + 1) (delay * 2)
                    (sleep delay w1) (log1 ++ [Backoff.Slept delay])
              | Some cb =>
                  let log2 := log1 ++ [Backoff.Notified attempt e delay] in
                  match cb attempt e delay w1 with
                  | (Returns, w2) =>
                      retry_loop fuel' retries onRetry (attempt + 1)
                        (delay * 2) (sleep delay w2)
                        (log2 ++ [Backoff.Slept delay])
                  | (Throws x, w2) => Some (mkRun (FromObserver x) w2 log2)
                  end
              end
        end
      else
        Some (mkRun MaxRetries w log)
  end.

Definition retryWithBackoff (retries delay : option Z)
    (onRetry : option Observer) (w : World) : option Run :=
  let retries := default 3 retries in
  let delay := default 1000 delay in
  retry_loop (S (Z.to_nat retries)) retries onRetry 1 delay w [].

(** An observer of [Backoff], which returns. *)
Definition returning (cb : @Backoff.Observer Err World) : Observer :=
  λ attempt e delay w, (Returns, cb attempt e delay w).

(** A run of [Backoff], read as a run of this executor. *)
Definition of_run (r : @Backoff.Run T Err World) : Run :=
  mkRun
    (match Backoff.outcome r with
     | Backoff.Resolve v => Return v
     | Backoff.Reject (Backoff.Caught e) => Rethrow e
     | Backoff.Reject (Backoff.NewError _) => MaxRetries
     end)
    (Backoff.world r) (Backoff.events r).

(** Observations on a run. *)
Definition invocations (r : Run) : nat :=
  length (filter (λ ev, Backoff.is_invoked ev = true) (events r)).

Definition sleeps (r : Run) : list Z :=
  omap BackoffTrace.slept_delay (events r).

Definition notifications (r : Run) : list Z :=
  omap Backoff.notified_delay (events r).

(** What an event of the log does to the world: the operation, the
    observer and the timer are the only ones to touch it. *)
Definition replay (onRetry : option Observer) (w : World) (ev : Event)
    : World :=
  match ev with
  | Backoff.Invoked _ _ => (fn w).2
  | Backoff.Notified attempt e delay =>
      match onRetry with
      | Some cb => (cb attempt e delay w).2
      | None => w
      end
  | Backoff.Slept delay => sleep delay w
  end.

End Executor.

End Observed.

(** * Properties of the backoff executor *)

Section BackoffFacts.

Import Backoff.

Context {T Err World : Type}.
Variable fn : World → @Attempt T Err * World.
Variable sleep : Z → World → World.

Abbreviation Observer := (@Observer Err World).
Abbreviation retry_loop := (retry_loop fn sleep).
Abbreviation retryWithBackoff := (retryWithBackoff fn sleep).
Abbreviation no_success :=
  (Forall (λ ev : @Event T Err, is_success ev = false)).

(** The loop test is evaluated at most [retries - attempt + 2] times, so
    the fuel [retryWithBackoff] hands over is never used up. *)
Lemma retry_loop_total fuel retries (onRetry : option Observer) attempt delay w log :
  Z.max 0 (retries + 1 - attempt) < Z.of_nat fuel →
  is_Some (retry_loop fuel retries onRetry attempt delay w log).
Proof.
  revert attempt delay w log.
  induction fuel as [|fuel IH]; intros attempt delay w log Hfuel; [lia|].
  cbn [Backoff.retry_loop].
  destruct (Z.leb_spec attempt retries) as [Hle|Hgt]; [|by eexists].
  destruct (fn w) as [[v|e] w1]; [by eexists|].
  destruct (Z.eqb_spec attempt retries) as [->|Hne]; [by eexists|].
  destruct (notify onRetry attempt e delay w1 _) as [w2 log2].
  apply IH. lia.
Qed.

Lemma retryWithBackoff_total retries delay (onRetry : option Observer) w :
  is_Some (retryWithBackoff retries delay onRetry w).
Proof. apply retry_loop_total. lia. Qed.

(** Entered with [attempt <= retries], the loop ends in one of its two
    exits inside the [try]: the [return] after an attempt that succeeded
    or the [throw error] after attempt number [retries] failed. *)
Lemma retry_loop_exits fuel retries (onRetry : option Observer) attempt delay w log run :
  attempt ≤ retries →
  retry_loop fuel retries onRetry attempt delay w log = Some run →
  (∃ a v l, attempt ≤ a ≤ retries ∧
      events run = l ++ [Invoked a (Returned v)] ∧ outcome run = Resolve v)
  ∨ (∃ e l, events run = l ++ [Invoked retries (Threw e)] ∧
      outcome run = Reject (Caught e)).
Proof.
  revert attempt delay w log.
  induction fuel as [|fuel IH]; intros attempt delay w log Hle Hrun; [done|].
  cbn [Backoff.retry_loop] in Hrun.
  destruct (Z.leb_spec attempt retries) as [_|Hgt]; [|lia].
  destruct (fn w) as [[v|e] w1].
  - injection Hrun as <-. left. exists attempt, v, log. cbn. split; [lia|done].
  - destruct (Z.eqb_spec attempt retries) as [->|Hne].
    + injection Hrun as <-. right. by exists e, log.
    + destruct (notify onRetry attempt e delay w1 _) as [w2 log2].
      apply IH in Hrun; [|lia].
      destruct Hrun as [(a & v & l & Ha & Hev & Hout)|Hrej]; [left|by right].
      exists a, v, l. split; [lia|done].
Qed.

(** The observer is told, it does not invoke the operation. *)
Lemma notify_no_success (onRetry : option Observer) attempt e delay w log w' log' :
  notify onRetry attempt e delay w log = (w', log') →
  no_success log →
  no_success log'.
Proof.
  destruct onRetry as [cb|]; cbn; intros [= <- <-] Hlog; [|done].
  apply Forall_app. split; [done|]. by repeat constructor.
Qed.

(** A successful attempt is the last thing a run does. *)
Lemma retry_loop_success_last fuel retries (onRetry : option Observer) attempt delay w log run :
  no_success log →
  retry_loop fuel retries onRetry attempt delay w log = Some run →
  (∃ a v l, events run = l ++ [Invoked a (Returned v)] ∧
      outcome run = Resolve v ∧ no_success l)
  ∨ no_success (events run).
Proof.
  revert attempt delay w log.
  induction fuel as [|fuel IH]; intros attempt delay w log Hlog Hrun; [done|].
  cbn [Backoff.retry_loop] in Hrun.
  destruct (attempt <=? retries); [|injection Hrun as <-; by right].
  destruct (fn w) as [[v|e] w1].
  - injection Hrun as <-. left. by exists attempt, v, log.
  - assert (no_success (log ++ [Invoked attempt (Threw e)])) as Hlog1.
    { apply Forall_app. split; [done|]. by repeat constructor. }
    destruct (attempt =? retries); [injection Hrun as <-; by right|].
    destruct (notify onRetry attempt e delay w1 _) as [w2 log2] eqn:Hn.
    apply IH in Hrun; [done|].
    apply Forall_app. split; [|by repeat constructor].
    by eapply notify_no_success.
Qed.

Lemma success_splits_once (l1 l2 l : list (@Event T Err)) a v b u :
  l1 ++ Invoked a (Returned v) :: l2 = l ++ [Invoked b (Returned u)] →
  no_success l →
  l2 = [] ∧ v = u.
Proof.
  revert l. induction l1 as [|x l1 IH]; intros l Heq Hl.
  - destruct l as [|y l]; cbn in Heq.
    + by injection Heq as -> ->.
    + injection Heq as <- Heq. by inversion Hl.
  - destruct l as [|y l]; cbn in Heq.
    + injection Heq as -> Heq. by destruct l1.
    + injection Heq as <- Heq. inversion Hl; subst. by eapply IH.
Qed.

(** C5. When the operation fails at every attempt,
    [retryWithBackoff(op, 3, 100, onRetry)] invokes it three times, calls
    [onRetry] twice, with the delays 100 and then 200, and rejects with
    the very value the third attempt threw.  The calls of [onRetry] are
    made: the second attempt runs in the world that the first call of
    [onRetry] and the sleep of 100 ms left, the third in the world that
    the second call and the sleep of 200 ms left, and the call ends in the
    world the third attempt left. *)
Theorem always_failing_exhausts (cb : Observer) w :
  (∀ w', ∃ e w'', fn w' = (Threw e, w'')) →
  ∃ e1 w1 e2 w2 e3 w3 run,
    fn w = (Threw e1, w1) ∧
    fn (sleep 100 (cb 1 e1 100 w1)) = (Threw e2, w2) ∧
    fn (sleep 200 (cb 2 e2 200 w2)) = (Threw e3, w3) ∧
    retryWithBackoff (Some 3) (Some 100) (Some cb) w = Some run ∧
    events run =
      [Invoked 1 (Threw e1); Notified 1 e1 100; Slept 100;
       Invoked 2 (Threw e2); Notified 2 e2 200; Slept 200;
       Invoked 3 (Threw e3)] ∧
    invocations run = 3%nat ∧
    notifications run = [100; 200] ∧
    outcome run = Reject (Caught e3) ∧
    world run = w3.
Proof.
  intros Hfail.
  destruct (Hfail w) as (e1 & w1 & H1).
  destruct (Hfail (sleep 100 (cb 1 e1 100 w1))) as (e2 & w2 & H2).
  destruct (Hfail (sleep 200 (cb 2 e2 200 w2))) as (e3 & w3 & H3).
  exists e1, w1, e2, w2, e3, w3. eexists.
  split; [done|]. split; [done|]. split; [done|]. split.
  - vm_compute. rewrite H1. vm_compute. rewrite H2. vm_compute. rewrite H3.
    reflexivity.
  - done.
Qed.

(** C6. When the operation fails at the first attempt and succeeds at the
    second, [retryWithBackoff(op, 3, 100, onRetry)] invokes it twice, calls
    [onRetry] once and resolves with the value of the second attempt; and
    in whatever call, an attempt that succeeded is the last thing done. *)
Theorem fails_once_then_succeeds (cb : Observer) w e w1 v w2 :
  fn w = (Threw e, w1) →
  fn (sleep 100 (cb 1 e 100 w1)) = (Returned v, w2) →
  (∃ run,
    retryWithBackoff (Some 3) (Some 100) (Some cb) w = Some run ∧
    events run =
      [Invoked 1 (Threw e); Notified 1 e 100; Slept 100;
       Invoked 2 (Returned v)] ∧
    invocations run = 2%nat ∧
    length (notifications run) = 1%nat ∧
    outcome run = Resolve v ∧ world run = w2)
  ∧ (∀ retries delay onRetry w0 run l1 a u l2,
      retryWithBackoff retries delay onRetry w0 = Some run →
      events run = l1 ++ Invoked a (Returned u) :: l2 →
      l2 = [] ∧ outcome run = Resolve u).
Proof.
  intros H1 H2. split.
  - eexists. split.
    + vm_compute. rewrite H1. vm_compute. rewrite H2. reflexivity.
    + done.
  - intros retries delay onRetry w0 run l1 a u l2 Hrun Hev.
    apply retry_loop_success_last in Hrun; [|constructor].
    destruct Hrun as [(b & u' & l & Hl & Hout & Hno)|Hno].
    + rewrite Hl in Hev. symmetry in Hev.
      apply success_splits_once in Hev as [-> ->]; done.
    + rewrite Hev in Hno. apply Forall_app in Hno as [_ Hno].
      by inversion Hno.
Qed.


(** C9. With [retries] at most 0 the operation is never invoked and the
    call rejects with the error of line 40. *)
Theorem nonpositive_retries_fall_through retries delay (onRetry : option Observer) w :
  retries ≤ 0 →
  ∃ run,
    retryWithBackoff (Some retries) delay onRetry w = Some run ∧
    outcome run = Reject (NewError "Max retries reached") ∧
    events run = [] ∧ invocations run = 0%nat ∧ world run = w.
Proof.
  intros Hle.
  exists (mkRun (Reject (NewError "Max retries reached")) w []).
  split; [|by repeat split].
  unfold Backoff.retryWithBackoff.
  change (default 3 (Some retries)) with retries.
  cbn [Backoff.retry_loop].
  destruct (Z.leb_spec 1 retries); [lia|done].
Qed.

End BackoffFacts.

(** The four statements above at concrete operations.  For the first the
    world counts the invocations of the operation and the calls of the
    observer; for the others it counts the invocations, with an observer
    and a sleep that leave it alone. *)

Lemma always_failing_exhausts_witness :
  ∃ run,
    Backoff.retryWithBackoff (T := unit)
      (λ w : nat * nat, (Backoff.Threw w.1, (S w.1, w.2))) (λ _ w, w)
      (Some 3) (Some 100) (Some (λ _ _ _ w, (w.1, S w.2))) (0%nat, 0%nat)
      = Some run ∧
    Backoff.events run =
      [Backoff.Invoked 1 (Backoff.Threw 0%nat); Backoff.Notified 1 0%nat 100;
       Backoff.Slept 100;
       Backoff.Invoked 2 (Backoff.Threw 1%nat); Backoff.Notified 2 1%nat 200;
       Backoff.Slept 200;
       Backoff.Invoked 3 (Backoff.Threw 2%nat)] ∧
    Backoff.outcome run = Backoff.Reject (Backoff.Caught 2%nat) ∧
    Backoff.world run = (3%nat, 2%nat).
Proof.
  destruct (always_failing_exhausts (T := unit)
              (λ w : nat * nat, (Backoff.Threw w.1, (S w.1, w.2)))
              (λ _ w, w) (λ _ _ _ w, (w.1, S w.2)) (0%nat, 0%nat))
    as (e1 & w1 & e2 & w2 & e3 & w3 & run
        & H1 & H2 & H3 & Hrun & Hev & _ & _ & Hout & Hw).
  - intros w'. by eexists _, _.
  - cbn in H1. injection H1 as <- <-.
    cbn in H2. injection H2 as <- <-.
    cbn in H3. injection H3 as <- <-.
    exists run. by rewrite Hev, Hout, Hw.
Defined.

Lemma fails_once_then_succeeds_witness :
  (∃ run,
    Backoff.retryWithBackoff (T := Z) (Err := string)
      (λ n : nat,
         (match n with
          | O => Backoff.Threw "503"%string
          | S _ => Backoff.Returned 7
          end, S n))
      (λ _ n, n)
      (Some 3) (Some 100) (Some (λ _ _ _ n, n)) 0%nat = Some run ∧
    Backoff.events run =
      [Backoff.Invoked 1 (Backoff.Threw "503"%string);
       Backoff.Notified 1 "503"%string 100; Backoff.Slept 100;
       Backoff.Invoked 2 (Backoff.Returned 7)] ∧
    Backoff.invocations run = 2%nat ∧
    length (Backoff.notifications run) = 1%nat ∧
    Backoff.outcome run = Backoff.Resolve 7 ∧ Backoff.world run = 2%nat).
Proof.
  eapply proj1.
  apply (fails_once_then_succeeds
           (λ n : nat,
              (match n with
               | O => Backoff.Threw "503"%string
               | S _ => Backoff.Returned 7
               end, S n))
           (λ _ n, n) (λ _ _ _ n, n) 0%nat "503"%string 1%nat 7 2%nat);
    reflexivity.
Defined.


Lemma nonpositive_retries_fall_through_witness :
  ∃ run,
    Backoff.retryWithBackoff (T := unit)
      (λ n : nat, (Backoff.Threw n, S n)) (λ _ n, n)
      (Some 0) (Some 100) None 5%nat = Some run ∧
    Backoff.outcome run =
      Backoff.Reject (Backoff.NewError "Max retries reached") ∧
    Backoff.events run = [] ∧ Backoff.invocations run = 0%nat ∧
    Backoff.world run = 5%nat.
Proof.
  apply (nonpositive_retries_fall_through
           (λ n : nat, (Backoff.Threw n, S n)) (λ _ n, n)
           0 (Some 100) None 5%nat).
  lia.
Defined.

(** * Properties of the batch runner *)

Section BatchFacts.

Import Batch.

Context {Err : Type}.
Variable limit : Z.
Variable tasks : list (@Settlement Err).

Abbreviation State := (@State Err).
Abbreviation Event := (@Event Err).
Abbreviation valid := (valid limit tasks).
Abbreviation Inv := (Inv limit tasks).
Abbreviation run := (run limit).
Abbreviation step := (step limit).
Abbreviation loop := (loop limit).

(** ** Traces *)

Lemma starts_Started j (tr : list Event) :
  starts (Started j :: tr) = j :: starts tr.
Proof. reflexivity. Qed.

Lemma starts_Finished j r (tr : list Event) :
  starts (Finished j r :: tr) = starts tr.
Proof. reflexivity. Qed.

Lemma finishes_Started j (tr : list Event) :
  finishes (Started j :: tr) = finishes tr.
Proof. reflexivity. Qed.

Lemma finishes_Finished j r (tr : list Event) :
  finishes (Finished j r :: tr) = j :: finishes tr.
Proof. reflexivity. Qed.

Lemma inflight_count (tr : list Event) :
  inflight tr = Z.of_nat (length (starts tr)) - Z.of_nat (length (finishes tr)).
Proof.
  induction tr as [|[j|j r] tr IH]; cbn [inflight delta]; [done| |];
    rewrite IH; unfold starts, finishes; cbn; lia.
Qed.

Lemma window_pos : 1 ≤ window limit.
Proof. unfold window. lia. Qed.

Lemma valid_inflight_le tr : valid tr → inflight tr ≤ window limit.
Proof.
  induction 1 as [|tr _ _ Hroom|tr j r _ IH _ _ _]; cbn [inflight delta].
  - pose proof window_pos. lia.
  - lia.
  - lia.
Qed.

Lemma valid_suffix tr tr' : valid tr → tr' `suffix_of` tr → valid tr'.
Proof.
  induction 1 as [|tr Hv IH Hroom|tr j r Hv IH Hj Hnot Hr]; intros Hsuf.
  - apply suffix_nil_inv in Hsuf as ->. constructor.
  - destruct Hsuf as [[|ev k] Heq]; cbn in Heq.
    + subst tr'. by constructor.
    + injection Heq as _ ->. apply IH. by eexists.
  - destruct Hsuf as [[|ev k] Heq]; cbn in Heq.
    + subst tr'. by constructor.
    + injection Heq as _ ->. apply IH. by eexists.
Qed.

(** Tasks are started in the order of the array, each one once. *)
Lemma valid_starts tr :
  valid tr → starts tr = reverse (seq 0 (length (starts tr))).
Proof.
  induction 1 as [|tr _ IH _|tr j r _ IH _ _ _]; [done| |done].
  change (starts (Started (length (starts tr)) :: tr))
    with (length (starts tr) :: starts tr).
  cbn [length]. rewrite seq_S, reverse_app. cbn. by rewrite <- IH.
Qed.

Lemma valid_started tr j :
  valid tr → j ∈ starts tr ↔ (j < length (starts tr))%nat.
Proof.
  intros Hv. rewrite (valid_starts tr Hv) at 1.
  rewrite elem_of_reverse, elem_of_seq. lia.
Qed.

(** A task that finished was started before, and settled as the array
    says. *)
Lemma valid_finished tr j r :
  valid tr → Finished j r ∈ tr →
  tasks !! j = Some r ∧ (j < length (starts tr))%nat.
Proof.
  induction 1 as [|tr _ IH _|tr i q _ IH Hi _ Hq]; intros Hin.
  - by apply elem_of_nil in Hin.
  - apply elem_of_cons in Hin as [?|Hin]; [done|].
    destruct (IH Hin). split; [done|]. rewrite starts_Started. cbn. lia.
  - apply elem_of_cons in Hin as [[= -> ->]|Hin]; [done|]. by apply IH.
Qed.

Lemma finishes_elem (tr : list Event) j :
  j ∈ finishes tr ↔ ∃ r, Finished j r ∈ tr.
Proof.
  unfold finishes. rewrite list_elem_of_omap. split.
  - intros ([i|i r] & Hin & [= <-]). by exists r.
  - intros [r Hin]. by exists (Finished j r).
Qed.

Lemma valid_finishes_lt tr j :
  valid tr → j ∈ finishes tr → (j < length (starts tr))%nat.
Proof.
  intros Hv [r Hin]%finishes_elem. by destruct (valid_finished tr j r).
Qed.

(** ** The invariant *)

(** The stretch from the head of the [for] to the next [await] establishes
    the invariant, entered with room in the window. *)
Lemma loop_inv todo i (ex : gmap nat (@Settlement Err)) tr :
  valid tr →
  i = length (starts tr) →
  todo = drop i tasks →
  (i ≤ length tasks)%nat →
  (∀ j r, ex !! j = Some r ↔
          (j < i)%nat ∧ (j ∉ finishes tr) ∧ tasks !! j = Some r) →
  Z.of_nat (size ex) = inflight tr →
  inflight tr < window limit →
  Inv (loop todo i ex tr).
Proof.
  revert i ex tr.
  induction todo as [|task rest IH]; intros i ex tr Hv Hi Htodo Hle Hex Hsz Hroom.
  - cbn [Batch.loop]. split; cbn; try done.
    unfold ctl_inv; cbn. by destruct (decide (ex = ∅)).
  - assert (tasks !! i = Some task) as Hti.
    { rewrite <- (Nat.add_0_r i), <- lookup_drop, <- Htodo. done. }
    assert (rest = drop (S i) tasks) as Hrest.
    { change rest with (drop 1 (task :: rest)).
      rewrite Htodo, drop_drop. f_equal. lia. }
    assert (i < length tasks)%nat as Hlt by by eapply lookup_lt_Some.
    assert (ex !! i = None) as Hfresh.
    { destruct (ex !! i) as [r|] eqn:Hl; [|done].
      apply Hex in Hl as [? _]. lia. }
    assert (valid (Started i :: tr)) as Hv'.
    { rewrite Hi. by constructor. }
    assert (∀ j r, <[i:=task]> ex !! j = Some r ↔
              (j < S i)%nat ∧ (j ∉ finishes (Started i :: tr)) ∧
              tasks !! j = Some r) as Hex'.
    { intros j r. rewrite finishes_Started.
      destruct (decide (i = j)) as [<-|Hne].
      - rewrite lookup_insert_eq. split.
        + intros [= <-]. split; [lia|]. split; [|done].
          intros Hin%(valid_finishes_lt tr i Hv). lia.
        + intros (_ & _ & Hr). congruence.
      - rewrite lookup_insert_ne by done. rewrite Hex.
        split; intros (? & ? & ?); (split; [lia|done]). }
    assert (Z.of_nat (size (<[i:=task]> ex)) = inflight (Started i :: tr))
      as Hsz'.
    { rewrite map_size_insert_None by done. cbn [inflight delta]. lia. }
    cbn [Batch.loop].
    destruct (Z.leb_spec limit (Z.of_nat (size (<[i:=task]> ex)))) as [Hfull|Hfree].
    + split; cbn [todo next executing ctl trace]; try done.
      * rewrite starts_Started. cbn. by rewrite Hi.
      * unfold ctl_inv; cbn. apply insert_non_empty.
    + apply IH; try done.
      * rewrite starts_Started. cbn. by rewrite Hi.
      * unfold window. lia.
Qed.

(** The call establishes it. *)
Lemma runWithConcurrency_inv : Inv (runWithConcurrency limit tasks).
Proof.
  apply loop_inv; try done.
  - constructor.
  - lia.
  - intros j r. rewrite lookup_empty. split; [done|]. intros [? _]. lia.
  - cbn. pose proof window_pos. lia.
Qed.

Lemma size_delete_Some (ex : gmap nat (@Settlement Err)) j r :
  ex !! j = Some r →
  Z.of_nat (size (delete j ex)) = Z.of_nat (size ex) - 1.
Proof.
  intros Hl. rewrite map_size_delete, Hl.
  assert (size ex ≠ 0%nat) by (apply map_size_non_empty_iff; intros ->;
    by rewrite lookup_empty in Hl).
  lia.
Qed.

Lemma caused_mono (r : @Settlement Err) ev tr :
  caused r tr → caused r (ev :: tr).
Proof.
  destruct r as [|e]; [done|]. intros [j Hin]. exists j. by right.
Qed.

(** A promise settles. *)
Lemma settle_inv j s s' : Inv s → settle j s = Some s' → Inv s'.
Proof.
  intros [Hv Hn Ht Hb Hex Hsz Hc] Hs. unfold settle in Hs.
  destruct (executing s !! j) as [r|] eqn:Hl; [|done]. injection Hs as <-.
  destruct (proj1 (Hex j r) Hl) as (Hj & Hnf & Hr).
  assert (valid (Finished j r :: trace s)) as Hv'.
  { constructor; try done. by rewrite <- Hn. }
  pose proof (size_delete_Some _ _ _ Hl) as Hsz'.
  pose proof (valid_inflight_le _ Hv) as Hle.
  split; cbn [todo next executing ctl trace]; try done.
  - intros i q. rewrite finishes_Finished, not_elem_of_cons.
    destruct (decide (j = i)) as [<-|Hne].
    + rewrite lookup_delete_eq. split; [done|]. by intros (_ & [? _] & _).
    + rewrite lookup_delete_ne by done. rewrite Hex. split.
      * intros (? & ? & ?). split; [done|]. split; [|done].
        split; [congruence|done].
      * by intros (? & [_ ?] & ?).
  - cbn [inflight delta]. lia.
  - unfold ctl_inv in *; cbn [todo next executing ctl trace inflight delta].
    destruct (ctl s) as [[|]|[|] [|e]| |e]; cbn [wake].
    + split; [lia|]. destruct r as [|e]; [done|]. exists j. by left.
    + destruct Hc as [Htodo _]. destruct r as [|e].
      * by destruct (decide (delete j (executing s) = ∅)).
      * exists j. by left.
    + destruct Hc as [Hroom _]. split; [lia|done].
    + destruct Hc as [Hroom Hcause]. split; [lia|]. by apply caused_mono.
    + destruct Hc as [Htodo Hempty]. by rewrite Hempty, lookup_empty in Hl.
    + by apply (caused_mono (Rejects e)).
    + destruct Hc as [Htodo Hempty]. by rewrite Hempty, lookup_empty in Hl.
    + by apply (caused_mono (Rejects e)).
Qed.

(** The continuation runs. *)
Lemma resume_inv s s' : Inv s → resume limit s = Some s' → Inv s'.
Proof.
  intros [Hv Hn Ht Hb Hex Hsz Hc] Hs. unfold resume in Hs.
  unfold ctl_inv in Hc.
  destruct (ctl s) as [[|]|[|] [|e]| |e]; try done; injection Hs as <-.
  - destruct Hc as [Hroom _]. by apply loop_inv.
  - split; cbn [todo next executing ctl trace]; try done.
    by destruct Hc.
  - by split.
  - by split.
Qed.

Lemma step_inv c s s' : Inv s → step c s = Some s' → Inv s'.
Proof. destruct c as [j|]; [apply settle_inv|apply resume_inv]. Qed.

Lemma run_inv cs s s' : Inv s → run cs s = Some s' → Inv s'.
Proof.
  revert s. induction cs as [|c cs IH]; intros s Hinv Hrun; cbn in Hrun.
  - by injection Hrun as <-.
  - destruct (step c s) as [s1|] eqn:Hstep; [|done].
    eapply IH; [|done]. by eapply step_inv.
Qed.

Lemma reachable_inv s : reachable limit tasks s → Inv s.
Proof. intros [cs Hrun]. eapply run_inv; [apply runWithConcurrency_inv|done]. Qed.

Lemma run_app cs1 cs2 (s : State) :
  run (cs1 ++ cs2) s = run cs1 s ≫= run cs2.
Proof.
  revert s. induction cs1 as [|c cs1 IH]; intros s; cbn; [done|].
  destruct (step c s); [apply IH|done].
Qed.

Lemma reachable_run cs s s' :
  reachable limit tasks s → run cs s = Some s' → reachable limit tasks s'.
Proof.
  intros [cs0 Hrun0] Hrun. exists (cs0 ++ cs).
  by rewrite run_app, Hrun0.
Qed.

(** ** Counting the tasks in flight *)

Lemma filter_ne_length (l : list nat) j :
  NoDup l → j ∈ l → S (length (filter (λ i, i ≠ j) l)) = length l.
Proof.
  induction l as [|x l IH]; intros Hnd Hin; [by apply elem_of_nil in Hin|].
  apply NoDup_cons in Hnd as [Hx Hnd].
  destruct (decide (x = j)) as [->|Hne].
  - rewrite filter_cons_False by (intros ?; done). cbn. f_equal.
    clear IH Hin Hnd. induction l as [|y l IH]; [done|].
    apply not_elem_of_cons in Hx as [Hy Hx].
    rewrite filter_cons_True by done. cbn. f_equal. by apply IH.
  - apply elem_of_cons in Hin as [->|Hin]; [done|].
    rewrite filter_cons_True by done. cbn. f_equal. by apply IH.
Qed.

Lemma valid_starts_NoDup tr : valid tr → NoDup (starts tr).
Proof.
  intros Hv. rewrite (valid_starts tr Hv), reverse_Permutation.
  apply NoDup_seq.
Qed.

Lemma running_Finished (tr : list Event) j r :
  running (Finished j r :: tr) = filter (λ i, i ≠ j) (running tr).
Proof.
  unfold running. rewrite starts_Finished, finishes_Finished.
  rewrite list_filter_filter. apply list_filter_iff.
  intros i. rewrite not_elem_of_cons. tauto.
Qed.

(** [inflight] counts the running tasks. *)
Lemma valid_running tr :
  valid tr → Z.of_nat (length (running tr)) = inflight tr.
Proof.
  induction 1 as [|tr Hv IH _|tr j r Hv IH Hj Hnot _]; [done| |].
  - unfold running. rewrite starts_Started, finishes_Started.
    rewrite filter_cons_True.
    + cbn [length inflight delta]. fold (running tr). lia.
    + intros Hin%(valid_finishes_lt tr _ Hv). lia.
  - rewrite running_Finished. cbn [inflight delta]. rewrite <- IH.
    assert (j ∈ running tr) as Hin.
    { apply list_elem_of_filter. split; [done|]. by apply valid_started. }
    pose proof (filter_ne_length (running tr) j) as Hlen.
    rewrite <- Hlen; [lia| |done].
    apply NoDup_filter. by apply valid_starts_NoDup.
Qed.

Lemma valid_running_le tr :
  valid tr → Z.of_nat (length (running tr)) ≤ window limit.
Proof.
  intros Hv. rewrite valid_running by done. by apply valid_inflight_le.
Qed.

(** ** Progress *)

Lemma loop_measure todo i (ex : gmap nat (@Settlement Err)) tr :
  (measure (loop todo i ex tr) ≤ 3 * length todo + 2 * size ex + 1)%nat.
Proof.
  revert i ex tr. induction todo as [|task rest IH]; intros i ex tr.
  - unfold measure; cbn. destruct (decide (ex = ∅)); cbn; lia.
  - cbn [Batch.loop].
    assert (size (<[i:=task]> ex) ≤ S (size ex))%nat as Hsz.
    { rewrite map_size_insert. destruct (ex !! i); cbn; lia. }
    destruct (limit <=? Z.of_nat (size (<[i:=task]> ex))).
    + unfold measure; cbn. lia.
    + etrans; [apply IH|]. cbn [length]. lia.
Qed.

(** Every step uses up some of the measure: no run goes on for ever. *)
Lemma step_measure c (s s' : State) :
  step c s = Some s' → (measure s' < measure s)%nat.
Proof.
  destruct c as [j|]; cbn [Batch.step].
  - unfold settle. destruct (executing s !! j) as [r|] eqn:Hl; [|done].
    intros [= <-]. pose proof (size_delete_Some _ _ _ Hl) as Hsz.
    unfold measure; cbn [todo executing ctl].
    assert (rank (wake (ctl s) r (delete j (executing s))) ≤ rank (ctl s))%nat.
    { destruct (ctl s) as [[|]|[|] q| |e]; cbn; try lia.
      destruct r; [|cbn; lia].
      destruct (decide (delete j (executing s) = ∅)); cbn; lia. }
    lia.
  - unfold resume. destruct (ctl s) as [[|]|[|] [|e]| |e] eqn:Hc; try done;
      intros [= <-]; unfold measure at 2; rewrite Hc; cbn [rank].
    + pose proof (loop_measure (todo s) (next s) (executing s) (trace s)). lia.
    + unfold measure; cbn. lia.
    + unfold measure; cbn. lia.
    + unfold measure; cbn. lia.
Qed.

(** From every state some run leads to a state where nothing is left to
    happen. *)
Lemma run_to_quiescence (s : State) :
  ∃ cs s', run cs s = Some s' ∧ quiescent limit s'.
Proof.
  remember (measure s) as n eqn:Hn. revert s Hn.
  induction n as [n IH] using lt_wf_ind. intros s ->.
  destruct (map_choose_or_empty (executing s)) as [(j & r & Hl)|Hempty].
  - assert (is_Some (settle j s)) as [s1 Hs1].
    { unfold settle. rewrite Hl. by eexists. }
    destruct (IH (measure s1)) with (s := s1) as (cs & s' & Hrun & Hq);
      [by apply (step_measure (Settle j))|done|].
    exists (Settle j :: cs), s'. cbn. by rewrite Hs1.
  - destruct (resume limit s) as [s1|] eqn:Hs1.
    + destruct (IH (measure s1)) with (s := s1) as (cs & s' & Hrun & Hq);
        [by apply (step_measure Resume)|done|].
      exists (Resume :: cs), s'. cbn. by rewrite Hs1.
    + exists [], s. split; [done|]. intros [j|]; cbn; [|done].
      unfold settle. by rewrite Hempty, lookup_empty.
Qed.

(** Where nothing is left to happen, the Set is empty and the promise of
    the function has settled. *)
Lemma quiescent_settled s :
  Inv s → quiescent limit s →
  executing s = ∅ ∧ (ctl s = Resolved ∨ ∃ e, ctl s = Rejected e).
Proof.
  intros Hinv Hq.
  assert (executing s = ∅) as Hempty.
  { destruct (map_choose_or_empty (executing s)) as [(j & r & Hl)|]; [|done].
    specialize (Hq (Settle j)). cbn in Hq. unfold settle in Hq.
    by rewrite Hl in Hq. }
  split; [done|].
  pose proof (inv_ctl _ _ _ Hinv) as Hc. unfold ctl_inv in Hc.
  specialize (Hq Resume). cbn in Hq. unfold resume in Hq.
  destruct (ctl s) as [[|]|[|] [|e]| |e]; try done.
  - by destruct Hc.
  - by left.
  - right. by exists e.
Qed.

(** ** Rejections *)

Lemma never_rejects_caused tr e :
  never_rejects tasks → valid tr → ¬ caused (Rejects e) tr.
Proof.
  intros Hnr Hv [j Hin].
  destruct (valid_finished tr j (Rejects e) Hv Hin) as [Hj _].
  unfold never_rejects in Hnr. rewrite Forall_lookup in Hnr.
  by specialize (Hnr j _ Hj).
Qed.

Lemma never_rejects_ctl s e :
  never_rejects tasks → Inv s → ctl s ≠ Rejected e.
Proof.
  intros Hnr Hinv Hc. pose proof (inv_ctl _ _ _ Hinv) as Hci.
  unfold ctl_inv in Hci. rewrite Hc in Hci.
  by eapply never_rejects_caused, Hci; [|eapply inv_valid].
Qed.

(** The promise of the function rejects with what a task rejected with. *)
Lemma rejected_cause s e :
  Inv s → ctl s = Rejected e →
  ∃ j, tasks !! j = Some (Rejects e) ∧ Finished j (Rejects e) ∈ trace s.
Proof.
  intros Hinv Hc. pose proof (inv_ctl _ _ _ Hinv) as Hci.
  unfold ctl_inv in Hci. rewrite Hc in Hci. destruct Hci as [j Hin].
  exists j. split; [|done].
  by destruct (valid_finished _ j (Rejects e) (inv_valid _ _ _ Hinv) Hin).
Qed.

(** Once the promise of the function has settled, it stays as it is and no
    task is started any more. *)
Lemma settled_stable cs (s s' : State) :
  ctl s = Resolved ∨ (∃ e, ctl s = Rejected e) →
  run cs s = Some s' →
  ctl s' = ctl s ∧ starts (trace s') = starts (trace s) ∧ todo s' = todo s.
Proof.
  revert s. induction cs as [|c cs IH]; intros s Hc Hrun; cbn in Hrun.
  - by injection Hrun as <-.
  - destruct (step c s) as [s1|] eqn:Hstep; [|done].
    assert (ctl s1 = ctl s ∧ starts (trace s1) = starts (trace s) ∧
            todo s1 = todo s) as (Hc1 & Hs1 & Ht1).
    { destruct c as [j|]; cbn in Hstep.
      - unfold settle in Hstep. destruct (executing s !! j); [|done].
        injection Hstep as <-. cbn.
        by destruct Hc as [->|[e ->]].
      - unfold resume in Hstep. by destruct Hc as [Hc|[e Hc]]; rewrite Hc in Hstep. }
    destruct (IH s1) as (? & ? & ?); [by rewrite Hc1|done|].
    repeat split; congruence.
Qed.

(** When the promise of the function is resolved, every task of the array
    has been started and has finished. *)
Lemma resolved_complete s :
  Inv s → ctl s = Resolved →
  starts (trace s) = reverse (seq 0 (length tasks)) ∧
  (∀ j, (j < length tasks)%nat → j ∈ finishes (trace s)) ∧
  running (trace s) = [].
Proof.
  intros Hinv Hc. pose proof (inv_ctl _ _ _ Hinv) as Hci.
  unfold ctl_inv in Hci. rewrite Hc in Hci. destruct Hci as [Htodo Hempty].
  assert (next s = length tasks) as Hnext.
  { pose proof (inv_todo _ _ _ Hinv) as Hd. rewrite Htodo in Hd.
    symmetry in Hd. apply drop_nil_inv in Hd.
    pose proof (inv_bound _ _ _ Hinv). lia. }
  assert (∀ j, (j < length tasks)%nat → j ∈ finishes (trace s)) as Hfin.
  { intros j Hj. destruct (decide (j ∈ finishes (trace s))) as [|Hnot]; [done|].
    destruct (lookup_lt_is_Some_2 tasks j Hj) as [r Hr].
    assert (executing s !! j = Some r) as Hl.
    { apply (inv_exec _ _ _ Hinv). split; [lia|done]. }
    by rewrite Hempty, lookup_empty in Hl. }
  split; [|split; [done|]].
  - rewrite (valid_starts _ (inv_valid _ _ _ Hinv)).
    by rewrite <- (inv_next _ _ _ Hinv), Hnext.
  - apply nil_length_inv.
    pose proof (valid_running _ (inv_valid _ _ _ Hinv)) as Hrun.
    rewrite <- (inv_size _ _ _ Hinv), Hempty, map_size_empty in Hrun. lia.
Qed.

(** The running tasks are those whose promise is in the Set. *)
Lemma running_executing s j :
  Inv s → j ∈ running (trace s) ↔ is_Some (executing s !! j).
Proof.
  intros Hinv. unfold running. rewrite list_elem_of_filter.
  rewrite (valid_started _ _ (inv_valid _ _ _ Hinv)).
  rewrite <- (inv_next _ _ _ Hinv). split.
  - intros [Hnot Hj].
    destruct (lookup_lt_is_Some_2 tasks j) as [r Hr].
    { pose proof (inv_bound _ _ _ Hinv). lia. }
    exists r. by apply (inv_exec _ _ _ Hinv).
  - intros [r (? & ? & ?)%(inv_exec _ _ _ Hinv)]. done.
Qed.

(** ** Two tasks admitted together *)

Lemma loop_keeps todo i (ex : gmap nat (@Settlement Err)) tr :
  finishes (trace (loop todo i ex tr)) = finishes tr ∧
  ∀ j r, (j < i)%nat → ex !! j = Some r →
         executing (loop todo i ex tr) !! j = Some r.
Proof.
  revert i ex tr. induction todo as [|task rest IH]; intros i ex tr; [done|].
  cbn [Batch.loop].
  destruct (limit <=? Z.of_nat (size (<[i:=task]> ex))).
  - split; [done|]. intros j r Hj Hl. cbn.
    rewrite lookup_insert_ne by lia. done.
  - destruct (IH (S i) (<[i:=task]> ex) (Started i :: tr)) as [Hf Hk].
    split; [done|]. intros j r Hj Hl. apply Hk; [lia|].
    rewrite lookup_insert_ne by lia. done.
Qed.

Lemma first_two (t0 t1 : @Settlement Err) rest :
  2 ≤ limit →
  executing (runWithConcurrency limit (t0 :: t1 :: rest)) !! 0%nat = Some t0 ∧
  executing (runWithConcurrency limit (t0 :: t1 :: rest)) !! 1%nat = Some t1 ∧
  finishes (trace (runWithConcurrency limit (t0 :: t1 :: rest))) = [].
Proof.
  intros Hlim. unfold runWithConcurrency. cbn [Batch.loop].
  rewrite insert_empty, map_size_singleton.
  destruct (Z.leb_spec limit (Z.of_nat 1)) as [?|_]; [lia|].
  destruct (limit <=? Z.of_nat (size (<[1%nat:=t1]> {[0%nat:=t0]}))).
  - cbn. rewrite lookup_insert_ne, lookup_singleton_eq, lookup_insert_eq by lia.
    done.
  - destruct (loop_keeps rest 2 (<[1%nat:=t1]> {[0%nat:=t0]})
                [Started 1; Started 0]) as [Hf Hk].
    split; [|split; [|done]].
    + apply Hk; [lia|]. by rewrite lookup_insert_ne, lookup_singleton_eq by lia.
    + apply Hk; [lia|]. by rewrite lookup_insert_eq.
Qed.

Lemma two_settles (s : State) a b ra rb :
  a ≠ b → executing s !! a = Some ra → executing s !! b = Some rb →
  ∃ s', run [Settle a; Settle b] s = Some s' ∧
        finishes (trace s') = b :: a :: finishes (trace s).
Proof.
  intros Hne Ha Hb. eexists. split; [|shelve].
  cbn. unfold settle at 1. rewrite Ha. cbn.
  unfold settle. cbn. rewrite lookup_delete_ne, Hb by done. reflexivity.
  Unshelve. done.
Qed.

(** ** The claims on the window *)

(** C2. With a limit of at least 1, at no instant of a call are more than
    [limit] tasks started and not yet finished; and the promises in the Set
    are those of the running tasks. *)
Theorem bounded_concurrency s tr :
  1 ≤ limit →
  reachable limit tasks s →
  tr `suffix_of` trace s →
  Z.of_nat (length (running tr)) ≤ limit ∧
  Z.of_nat (size (executing s)) ≤ limit ∧
  (∀ j, j ∈ running (trace s) ↔ is_Some (executing s !! j)).
Proof.
  intros Hlim Hinv%reachable_inv Hsuf.
  pose proof (inv_valid _ _ _ Hinv) as Hv.
  assert (window limit = limit) as Hw by (unfold window; lia).
  split; [|split].
  - rewrite <- Hw. apply valid_running_le. by eapply valid_suffix.
  - rewrite (inv_size _ _ _ Hinv), <- Hw. by apply valid_inflight_le.
  - intros j. by apply running_executing.
Qed.


(** ** The claims on failures and on the limit *)

(** Without a rejection every run that goes on until nothing is left to
    happen ends with the promise resolved and all tasks done. *)
Lemma never_rejects_resolves s cs s' :
  never_rejects tasks → Inv s →
  run cs s = Some s' → quiescent limit s' →
  ctl s' = Resolved ∧
  starts (trace s') = reverse (seq 0 (length tasks)) ∧
  (∀ j, (j < length tasks)%nat → j ∈ finishes (trace s')).
Proof.
  intros Hnr Hinv Hrun Hq.
  pose proof (run_inv _ _ _ Hinv Hrun) as Hinv'.
  destruct (quiescent_settled _ Hinv' Hq) as [_ [Hc|[e Hc]]].
  - split; [done|]. by destruct (resolved_complete _ Hinv' Hc) as (? & ? & _).
  - by destruct (never_rejects_ctl s' e).
Qed.

(** The admission test with a limit of at most 1 is the test with 1: the
    Set has just been added to. *)
Lemma loop_below_one todo i (ex : gmap nat (@Settlement Err)) tr :
  limit ≤ 1 → loop todo i ex tr = Batch.loop 1 todo i ex tr.
Proof.
  intros Hlim. revert i ex tr.
  induction todo as [|task rest IH]; intros i ex tr; [done|].
  cbn [Batch.loop].
  assert (size (<[i:=task]> ex) ≠ 0%nat) as Hne.
  { apply map_size_non_empty_iff, insert_non_empty. }
  destruct (Z.leb_spec limit (Z.of_nat (size (<[i:=task]> ex)))); [|lia].
  destruct (Z.leb_spec 1 (Z.of_nat (size (<[i:=task]> ex)))); [done|lia].
Qed.

Lemma run_below_one cs (s : State) :
  limit ≤ 1 → run cs s = Batch.run 1 cs s.
Proof.
  intros Hlim. revert s. induction cs as [|c cs IH]; intros s; [done|].
  cbn [Batch.run].
  assert (step c s = Batch.step 1 c s) as ->.
  { destruct c as [j|]; [done|]. cbn. unfold resume.
    destruct (ctl s) as [a|[|] [|e]| |e]; try done.
    by rewrite loop_below_one. }
  destruct (Batch.step 1 c s); [apply IH|done].
Qed.

(** A rejection that reaches the suspended function: the promise of task
    [j] is in the Set and rejects with [e] while the function is waiting,
    at the race or at [Promise.all].  The continuation throws, the promise
    of the function is rejected with [e], and from then on nothing changes
    that: what the [for] had not reached is never started. *)
Lemma rejection_seen s a j e :
  Inv s → ctl s = Waiting a → executing s !! j = Some (Rejects e) →
  ∃ s', run [Settle j; Resume] s = Some s' ∧
        ctl s' = Rejected e ∧
        Finished j (Rejects e) ∈ trace s' ∧
        todo s' = todo s ∧
        ∀ cs s'', run cs s' = Some s'' →
          ctl s'' = Rejected e ∧ todo s'' = todo s ∧
          ∀ k, (next s ≤ k)%nat → k ∉ starts (trace s'').
Proof.
  intros Hinv Hc Hj.
  exists (mkState (todo s) (next s) (delete j (executing s)) (Rejected e)
            (Finished j (Rejects e) :: trace s)).
  split.
  { cbn. unfold settle. rewrite Hj, Hc. cbn. by destruct a. }
  split; [done|]. split; [by left|]. split; [done|].
  intros cs s'' Hrun.
  eapply settled_stable in Hrun as (Hc' & Hs & Ht); [|right; by eexists].
  split; [done|]. split; [done|].
  intros k Hk Hin. rewrite Hs in Hin. cbn [trace] in Hin.
  rewrite starts_Finished in Hin.
  apply (valid_started _ _ (inv_valid _ _ _ Hinv)) in Hin.
  rewrite <- (inv_next _ _ _ Hinv) in Hin. lia.
Qed.



(** C4, as the code has it.  A limit below 1 is not refused: the call and
    all that follows are those of the limit 1.  And the promise of the
    function rejects only with the value a task rejected with. *)
Theorem limit_below_one_is_one :
  limit < 1 →
  runWithConcurrency limit tasks = runWithConcurrency 1 tasks ∧
  (∀ cs (s : State), run cs s = Batch.run 1 cs s) ∧
  (∀ s, reachable limit tasks s ↔ reachable 1 tasks s) ∧
  (∀ s e, reachable limit tasks s → ctl s = Rejected e →
     ∃ j, tasks !! j = Some (Rejects e) ∧ Finished j (Rejects e) ∈ trace s).
Proof.
  intros Hlim.
  assert (runWithConcurrency limit tasks = runWithConcurrency 1 tasks) as Hcall.
  { apply loop_below_one. lia. }
  assert (∀ cs (s : State), run cs s = Batch.run 1 cs s) as Hrun.
  { intros cs s. apply run_below_one. lia. }
  split; [done|]. split; [done|]. split.
  - intros s. unfold reachable. rewrite Hcall.
    split; intros [cs Hcs]; exists cs; by rewrite ?Hrun in *.
  - intros s e Hinv%reachable_inv Hc. by apply rejected_cause.
Qed.

(** C10.  With a limit of at most 0 and tasks that never reject: a task is
    started only when none is running, so at most one runs at a time; the
    tasks are started in the order of the array; the promise of the
    function never rejects, and it is resolved only when every task has
    been started and has finished, none running any more; every run can be
    carried on until nothing is left to happen, and then the promise is
    resolved and every task has been started once and has finished. *)
Theorem nonpositive_limit_is_sequential s :
  limit ≤ 0 →
  never_rejects tasks →
  reachable limit tasks s →
  (∀ tr, tr `suffix_of` trace s → (length (running tr) ≤ 1)%nat) ∧
  (∀ j tr, Started j :: tr `suffix_of` trace s → running tr = []) ∧
  starts (trace s) = reverse (seq 0 (next s)) ∧
  (∀ e, ctl s ≠ Rejected e) ∧
  (ctl s = Resolved →
     starts (trace s) = reverse (seq 0 (length tasks)) ∧
     NoDup (starts (trace s)) ∧
     (∀ j, (j < length tasks)%nat → j ∈ finishes (trace s)) ∧
     running (trace s) = []) ∧
  (∃ cs s', run cs s = Some s' ∧ quiescent limit s') ∧
  (∀ c s', step c s = Some s' → (measure s' < measure s)%nat) ∧
  (∀ cs s', run cs s = Some s' → quiescent limit s' →
     ctl s' = Resolved ∧
     starts (trace s') = reverse (seq 0 (length tasks)) ∧
     NoDup (starts (trace s')) ∧
     (∀ j, (j < length tasks)%nat → j ∈ finishes (trace s'))).
Proof.
  intros Hlim Hnr Hreach. pose proof (reachable_inv _ Hreach) as Hinv.
  pose proof (inv_valid _ _ _ Hinv) as Hv.
  assert (window limit = 1) as Hw by (unfold window; lia).
  split.
  { intros tr Hsuf. pose proof (valid_running_le tr) as Hle.
    rewrite Hw in Hle. specialize (Hle (valid_suffix _ _ Hv Hsuf)). lia. }
  split.
  { intros j tr Hsuf. pose proof (valid_suffix _ _ Hv Hsuf) as Hv'.
    inversion Hv' as [|tr0 Hvt Hroom [Hj Htr]|]; subst tr0.
    rewrite Hw, <- valid_running in Hroom by done.
    apply nil_length_inv. lia. }
  split; [rewrite (inv_next _ _ _ Hinv); by apply valid_starts|].
  split; [intros e; by apply never_rejects_ctl|].
  split.
  { intros Hc. destruct (resolved_complete _ Hinv Hc) as (Hs & Hf & Hr).
    repeat split; try done. by apply valid_starts_NoDup. }
  split; [apply run_to_quiescence|].
  split; [intros c s'; apply step_measure|].
  intros cs s' Hrun Hq.
  destruct (never_rejects_resolves s cs s') as (Hc & Hs & Hf); try done.
  repeat split; try done.
  apply valid_starts_NoDup. eapply inv_valid, run_inv; done.
Qed.

End BatchFacts.

(** * Concrete batches *)



(** Against C4 as stated: the limit 0 is taken without complaint.  The
    call starts the task and waits; the batch resolves when the task has
    finished, and rejects when the task rejects. *)
Lemma limit_zero_is_accepted :
  Batch.ctl (Batch.runWithConcurrency 0 [@Batch.Fulfils string])
    = Batch.Waiting Batch.Race ∧
  Batch.trace (Batch.runWithConcurrency 0 [@Batch.Fulfils string])
    = [Batch.Started 0] ∧
  Batch.run 0 [Batch.Settle 0; Batch.Resume; Batch.Resume]
    (Batch.runWithConcurrency 0 [@Batch.Fulfils string])
    = Some (Batch.mkState [] 1 ∅ Batch.Resolved
              [Batch.Finished 0 Batch.Fulfils; Batch.Started 0]) ∧
  Batch.run 0 [Batch.Settle 0; Batch.Resume]
    (Batch.runWithConcurrency 0 [Batch.Rejects "boom"%string])
    = Some (Batch.mkState [] 1 ∅ (Batch.Rejected "boom"%string)
              [Batch.Finished 0 (Batch.Rejects "boom"%string);
               Batch.Started 0]).
Proof. by vm_compute. Qed.

(** The statements on the runner at concrete batches. *)


Lemma bounded_concurrency_witness :
  Z.of_nat (length (Batch.running [@Batch.Started string 0])) ≤ 2 ∧
  Z.of_nat (size (Batch.executing (Batch.runWithConcurrency 2
      [@Batch.Fulfils string; Batch.Fulfils; Batch.Fulfils]))) ≤ 2 ∧
  (∀ j,
     j ∈ Batch.running (Batch.trace (Batch.runWithConcurrency 2
           [@Batch.Fulfils string; Batch.Fulfils; Batch.Fulfils])) ↔
     is_Some (Batch.executing (Batch.runWithConcurrency 2
           [@Batch.Fulfils string; Batch.Fulfils; Batch.Fulfils]) !! j)).
Proof.
  apply (bounded_concurrency 2
           [@Batch.Fulfils string; Batch.Fulfils; Batch.Fulfils]
           (Batch.runWithConcurrency 2
              [@Batch.Fulfils string; Batch.Fulfils; Batch.Fulfils])
           [Batch.Started 0]).
  - lia.
  - by exists [].
  - by exists [Batch.Started 1].
Defined.


Lemma limit_below_one_is_one_witness :
  Batch.runWithConcurrency 0 [Batch.Fulfils; Batch.Rejects "boom"%string]
  = Batch.runWithConcurrency 1 [Batch.Fulfils; Batch.Rejects "boom"%string].
Proof.
  eapply proj1.
  apply (limit_below_one_is_one 0 [Batch.Fulfils; Batch.Rejects "boom"%string]).
  lia.
Defined.


Lemma nonpositive_limit_is_sequential_witness :
  (length (Batch.running [@Batch.Started string 0]) ≤ 1)%nat.
Proof.
  destruct (nonpositive_limit_is_sequential (-3)
              [@Batch.Fulfils string; Batch.Fulfils]
              (Batch.runWithConcurrency (-3)
                 [@Batch.Fulfils string; Batch.Fulfils]))
    as (Hone & _).
  - lia.
  - by repeat constructor.
  - by exists [].
  - apply Hone. by exists [].
Defined.

(** Two runs of a batch, step by step. *)

(** Four tasks under the limit 2: the third is admitted when the first has
    finished, the fourth when the second has, and the promise is resolved
    when all four are done. *)
Example four_tasks_limit_two :
  Batch.run 2
    [Batch.Settle 0; Batch.Resume; Batch.Settle 1; Batch.Resume;
     Batch.Settle 2; Batch.Settle 3; Batch.Resume; Batch.Resume]
    (Batch.runWithConcurrency 2
       [@Batch.Fulfils string; Batch.Fulfils; Batch.Fulfils; Batch.Fulfils])
  = Some (Batch.mkState [] 4 ∅ Batch.Resolved
            [Batch.Finished 3 Batch.Fulfils; Batch.Finished 2 Batch.Fulfils;
             Batch.Started 3; Batch.Finished 1 Batch.Fulfils;
             Batch.Started 2; Batch.Finished 0 Batch.Fulfils;
             Batch.Started 1; Batch.Started 0]).
Proof. by vm_compute. Qed.

(** A rejection that comes after the race has settled and before the
    function goes on is seen by no [await]: the batch resolves, with a
    task that failed among those that finished. *)
Example unseen_rejection :
  Batch.run 2
    [Batch.Settle 0; Batch.Settle 1; Batch.Resume; Batch.Settle 2;
     Batch.Resume]
    (Batch.runWithConcurrency 2
       [Batch.Fulfils; Batch.Rejects "boom"%string; Batch.Fulfils])
  = Some (Batch.mkState [] 3 ∅ Batch.Resolved
            [Batch.Finished 2 Batch.Fulfils; Batch.Started 2;
             Batch.Finished 1 (Batch.Rejects "boom"%string);
             Batch.Finished 0 Batch.Fulfils;
             Batch.Started 1; Batch.Started 0]).
Proof. by vm_compute. Qed.

(** * Properties of the string helpers, of fileToBase64 and of the
      voice-over queue *)

Section JsFacts.

Import Js.

Lemma trim_start_nil_iff s :
  trim_start s = [] ↔ Forall (λ c, is_space c = true) s.
Proof.
  induction s as [|c s IH]; cbn; [by split|].
  destruct (is_space c) eqn:Hc.
  - rewrite IH. split; [by constructor|by inversion 1].
  - split; [done|]. inversion 1; congruence.
Qed.

Lemma trim_start_head s c r :
  trim_start s = c :: r → is_space c = false.
Proof.
  induction s as [|d s IH]; cbn; [done|].
  destruct (is_space d) eqn:Hd; [done|]. by intros [= <- _].
Qed.

(** What [trim_start] drops is white space, and it drops from the front. *)
Lemma trim_start_split s :
  ∃ pre, s = pre ++ trim_start s ∧ Forall (λ c, is_space c = true) pre.
Proof.
  induction s as [|c s (pre & Heq & Hpre)]; cbn; [by exists []|].
  destruct (is_space c) eqn:Hc.
  - exists (c :: pre). split; [by rewrite Heq at 1|by constructor].
  - by exists [].
Qed.

Lemma trim_start_app_keep s c :
  is_space c = false → trim_start (s ++ [c]) = trim_start s ++ [c].
Proof.
  intros Hc. induction s as [|d s IH]; cbn [trim_start app]; [by rewrite Hc|].
  by destruct (is_space d).
Qed.

Lemma trim_start_keeps_last s t c :
  is_space c = false → trim_start (s ++ c :: t) = trim_start (s ++ [c]) ++ t.
Proof.
  intros Hc. induction s as [|d s IH]; cbn [trim_start app]; [by rewrite Hc|].
  destruct (is_space d); [done|]. cbn. by rewrite <- app_assoc.
Qed.

Lemma trim_end_cons_keep c s :
  is_space c = false → ∃ r, trim_end (c :: s) = c :: r.
Proof.
  intros Hc. unfold trim_end. rewrite reverse_cons.
  rewrite <- (app_nil_r (reverse s ++ [c])), <- app_assoc. cbn.
  rewrite trim_start_keeps_last, app_nil_r by done.
  rewrite trim_start_app_keep by done.
  rewrite reverse_app. cbn. by eexists.
Qed.

(** A trimmed string that is not empty begins with a code unit that is
    not white space. *)
Lemma trim_head s c r : trim s = c :: r → is_space c = false.
Proof.
  unfold trim. destruct (trim_start s) as [|d t] eqn:Hs; [done|].
  pose proof (trim_start_head _ _ _ Hs) as Hd.
  destruct (trim_end_cons_keep d t Hd) as [r' ->]. by intros [= <- _].
Qed.

Lemma trim_nil_iff s : trim s = [] ↔ Forall (λ c, is_space c = true) s.
Proof.
  unfold trim, trim_end. split.
  - intros H. apply (f_equal reverse) in H. rewrite reverse_involutive in H.
    cbn in H. apply trim_start_nil_iff in H.
    apply trim_start_nil_iff.
    destruct (trim_start s) as [|d t] eqn:Hs; [done|].
    pose proof (trim_start_head _ _ _ Hs) as Hd.
    rewrite Forall_reverse in H. inversion H; congruence.
  - intros H. apply trim_start_nil_iff in H. by rewrite H.
Qed.

Lemma split_on_cons sep s : ∃ piece pieces, split_on sep s = piece :: pieces.
Proof.
  induction s as [|c s (p & ps & IH)]; cbn; [by eexists _, _|].
  destruct (c =? sep)%N; [by eexists _, _|]. rewrite IH. by eexists _, _.
Qed.

(** The first piece is the string up to its first separator. *)
Lemma split_on_app sep pre s :
  sep ∉ pre →
  split_on sep (pre ++ sep :: s) = pre :: split_on sep s.
Proof.
  induction pre as [|c pre IH]; intros Hpre; cbn.
  - by rewrite N.eqb_refl.
  - apply not_elem_of_cons in Hpre as [Hc Hpre].
    destruct (N.eqb_spec c sep) as [->|_]; [done|]. by rewrite IH.
Qed.

Lemma split_on_none sep s : sep ∉ s → split_on sep s = [s].
Proof.
  induction s as [|c s IH]; intros Hs; cbn; [done|].
  apply not_elem_of_cons in Hs as [Hc Hs].
  destruct (N.eqb_spec c sep) as [->|_]; [done|]. by rewrite IH.
Qed.

(** No piece holds a separator. *)
Lemma split_on_pieces sep s :
  Forall (λ piece, sep ∉ piece) (split_on sep s).
Proof.
  induction s as [|c s IH]; cbn.
  - repeat constructor. by intros ?%elem_of_nil.
  - destruct (N.eqb_spec c sep) as [->|Hne].
    + constructor; [by intros ?%elem_of_nil|done].
    + destruct (split_on sep s) as [|p ps]; [repeat constructor|].
      * intros [->|?%elem_of_nil]%elem_of_cons; done.
      * inversion IH; subst. constructor; [|done].
        intros [->|?]%elem_of_cons; done.
Qed.

(** Splitting loses the separators and nothing else. *)
Lemma split_on_filter sep (P : N → Prop) `{∀ c, Decision (P c)} s :
  ¬ P sep →
  filter P (concat (split_on sep s)) = filter P s.
Proof.
  intros Hsep. induction s as [|c s IH]; [done|]. cbn [split_on].
  destruct (N.eqb_spec c sep) as [->|Hne].
  - rewrite filter_cons_False by done. exact IH.
  - destruct (split_on sep s) as [|p ps].
    + cbn [concat app] in *. rewrite !filter_cons. by rewrite <- IH.
    + cbn [concat app] in *. rewrite !filter_cons. by rewrite <- IH.
Qed.

End JsFacts.

Section QueueFacts.

Import Js.

(** X1. A data URL whose header has no comma, read as a string, resolves
    with what follows the comma when that holds no comma either, as a
    base64 payload does. *)
Theorem fileToBase64_payload {Ev : Type} (header payload : list N) :
  State.comma ∉ header →
  State.comma ∉ payload →
  State.fileToBase64 (Ev := Ev)
    (State.Loaded (Some (header ++ State.comma :: payload)))
  = State.Resolved (Some payload).
Proof.
  intros Hh Hp. unfold State.fileToBase64.
  by rewrite split_on_app, split_on_none.
Qed.

(** X2. A string result without a comma does not make the promise of
    [fileToBase64] reject: it resolves with [undefined]. *)
Theorem fileToBase64_no_comma {Ev : Type} (result : list N) :
  State.comma ∉ result →
  State.fileToBase64 (Ev := Ev) (State.Loaded (Some result))
  = State.Resolved None.
Proof.
  intros Hr. unfold State.fileToBase64. by rewrite split_on_none.
Qed.

Lemma filter_trim_start s :
  filter (λ c, is_space c = false) (trim_start s)
  = filter (λ c, is_space c = false) s.
Proof.
  induction s as [|c s IH]; [done|]. cbn [trim_start].
  destruct (is_space c) eqn:Hc; [|done].
  rewrite filter_cons_False by congruence. done.
Qed.

Lemma filter_trim s :
  filter (λ c, is_space c = false) (trim s)
  = filter (λ c, is_space c = false) s.
Proof.
  unfold trim, trim_end.
  rewrite filter_reverse, filter_trim_start, <- filter_reverse.
  by rewrite reverse_involutive, filter_trim_start.
Qed.

Lemma filter_blank s :
  trim s = [] → filter (λ c, is_space c = false) s = [].
Proof.
  intros Hs%trim_nil_iff. induction Hs as [|c s Hc _ IH]; [done|].
  rewrite filter_cons_False by congruence. done.
Qed.

Lemma filter_concat_nonblank (pieces : list (list N)) :
  filter (λ c, is_space c = false)
    (concat (filter (λ line, trim line ≠ []) pieces))
  = filter (λ c, is_space c = false) (concat pieces).
Proof.
  induction pieces as [|p ps IH]; [done|]. cbn [concat].
  rewrite filter_app, <- IH.
  destruct (decide (trim p = [])) as [Hp|Hp].
  - rewrite filter_cons_False by (intros Hn; exact (Hn Hp)).
    by rewrite (filter_blank p).
  - rewrite filter_cons_True by done. cbn [concat]. by rewrite filter_app.
Qed.

(** X3. [runVoiceOverGeneration] never leaves with 'Please enter at least
    one line of script.': either the text box holds white space only and it
    leaves with 'Please enter a script.', or one script at least is queued.
    In single mode the one script is the trimmed text. *)
Theorem voice_over_second_guard_unreachable mode (value : list N) :
  (VoiceOver.prepare mode value = VoiceOver.NoScript ∧
   Forall (λ c, is_space c = true) value)
  ∨ (∃ script scripts,
       VoiceOver.prepare mode value = VoiceOver.Queued (script :: scripts) ∧
       trim script ≠ [] ∧
       (mode = VoiceOver.Single → script = trim value ∧ scripts = [])).
Proof.
  unfold VoiceOver.prepare.
  destruct (trim value) as [|c r] eqn:Ht.
  - left. split; [done|]. by apply trim_nil_iff.
  - right. cbn [truthy]. pose proof (trim_head _ _ _ Ht) as Hc.
    assert (∀ t, trim (c :: t) ≠ []) as Hne.
    { intros t Hb%trim_nil_iff. inversion Hb; congruence. }
    destruct mode.
    + exists (c :: r), []. split; [done|]. split; [apply Hne|done].
    + cbn [VoiceOver.scriptsToProcess split_on].
      destruct (N.eqb_spec c VoiceOver.newline) as [->|_]; [done|].
      destruct (split_on_cons VoiceOver.newline r) as (p & ps & ->).
      rewrite filter_cons_True by done.
      exists (c :: p), (filter (λ line, trim line ≠ []) ps).
      split; [done|]. split; [apply Hne|done].
Qed.

(** X4. In mass mode every queued script is a line of the trimmed text
    that is not blank, so it holds no line feed; and the queued scripts
    together hold, in order, every code unit of the text box that is not
    white space: only white space is dropped. *)
Theorem voice_over_mass_lines (value : list N) scripts :
  VoiceOver.prepare VoiceOver.Mass value = VoiceOver.Queued scripts →
  Forall (λ line, trim line ≠ [] ∧ VoiceOver.newline ∉ line) scripts ∧
  filter (λ c, is_space c = false) (concat scripts)
  = filter (λ c, is_space c = false) value.
Proof.
  unfold VoiceOver.prepare.
  destruct (truthy (trim value)); [|done].
  destruct (decide _) as [|_]; [done|]. intros [= <-].
  cbn [VoiceOver.scriptsToProcess]. split.
  - apply Forall_forall. intros line [Hline Hin]%list_elem_of_filter.
    split; [done|].
    pose proof (split_on_pieces VoiceOver.newline (trim value)) as Hp.
    rewrite Forall_forall in Hp. by apply Hp.
  - rewrite filter_concat_nonblank, split_on_filter, filter_trim; done.
Qed.

End QueueFacts.

Lemma fileToBase64_payload_witness :
  State.fileToBase64 (Ev := unit)
    (State.Loaded (Some (Js.lit "data:image/png;base64" ++
                         State.comma :: Js.lit "iVBORw0KGgo=")))
  = State.Resolved (Some (Js.lit "iVBORw0KGgo=")).
Proof.
  apply fileToBase64_payload.
  - apply (bool_decide_unpack _). by vm_compute.
  - apply (bool_decide_unpack _). by vm_compute.
Defined.

Lemma fileToBase64_no_comma_witness :
  State.fileToBase64 (Ev := unit) (State.Loaded (Some (Js.lit "data:")))
  = State.Resolved None.
Proof.
  apply fileToBase64_no_comma. apply (bool_decide_unpack _). by vm_compute.
Defined.

Lemma voice_over_mass_lines_witness :
  Forall (λ line, Js.trim line ≠ [] ∧ VoiceOver.newline ∉ line)
    [[97%N]; [32%N; 98%N]] ∧
  filter (λ c, Js.is_space c = false) (concat [[97%N]; [32%N; 98%N]])
  = filter (λ c, Js.is_space c = false)
      [32%N; 97%N; 10%N; 10%N; 32%N; 98%N; 10%N].
Proof.
  apply voice_over_mass_lines. by vm_compute.
Defined.

(** * Properties of the scene stores *)

Section StoreFacts.

Context {File : Type}.

Abbreviation Store := (@State.Store File).
Abbreviation UiEvent := (@Ui.Event File).

Lemma fresh_ids_nil : Ui.fresh_ids [] 0.
Proof. split; constructor. Qed.

Lemma fresh_ids_push ids next :
  Ui.fresh_ids ids next → Ui.fresh_ids (ids ++ [next]) (next + 1).
Proof.
  intros [Hnd Hlt]. split.
  - apply NoDup_app. split; [done|]. split; [|apply NoDup_singleton].
    intros i Hi ->%list_elem_of_singleton.
    rewrite Forall_forall in Hlt. specialize (Hlt _ Hi). lia.
  - apply Forall_app. split.
    + eapply Forall_impl; [done|]. cbn. lia.
    + repeat constructor. lia.
Qed.

Lemma fmap_filter_ne {A : Type} (key : A → Z) (x : Z) (l : list A) :
  key <$> filter (λ s, key s ≠ x) l = filter (λ i, i ≠ x) (key <$> l).
Proof.
  induction l as [|s l IH]; [done|]. cbn [fmap list_fmap].
  destruct (decide (key s = x)) as [Heq|Hne].
  - rewrite !filter_cons_False by (intros Hn; exact (Hn Heq)). exact IH.
  - rewrite !filter_cons_True by done. cbn. by rewrite <- IH.
Qed.

Lemma fresh_ids_filter ids next x :
  Ui.fresh_ids ids next → Ui.fresh_ids (filter (λ i, i ≠ x) ids) next.
Proof.
  intros [Hnd Hlt]. split; [by apply NoDup_filter|].
  apply Forall_forall. intros i [_ Hi]%list_elem_of_filter.
  rewrite Forall_forall in Hlt. by apply Hlt.
Qed.

Lemma fmap_update_first {A : Type} (key : A → Z) (p : A → bool)
    (f : A → A) (l : list A) :
  (∀ s, key (f s) = key s) →
  key <$> State.update_first p f l = key <$> l.
Proof.
  intros Hkey. induction l as [|s l IH]; [done|]. cbn.
  destruct (p s); cbn; [by rewrite Hkey|by rewrite IH].
Qed.

(** Every handler keeps the ids of both stores pairwise different and
    below the counter. *)
Lemma handle_well_formed (ev : UiEvent) (st : Store) :
  Ui.well_formed st → Ui.well_formed (Ui.handle ev st).
Proof.
  intros [Himg Hvid]. destruct ev as [|x|x v| |x|x f b m|x v|mode|[| |] b];
    unfold Ui.well_formed; cbn; try done.
  - split; [|done]. rewrite fmap_app. by apply fresh_ids_push.
  - split; [|done]. rewrite fmap_filter_ne. by apply fresh_ids_filter.
  - split; [|done]. by rewrite fmap_update_first.
  - split; [done|]. rewrite fmap_app. by apply fresh_ids_push.
  - split; [done|]. rewrite fmap_filter_ne. by apply fresh_ids_filter.
  - split; [done|]. by rewrite fmap_update_first.
  - split; [done|]. by rewrite fmap_update_first.
  - unfold Ui.clearOtherModeInputs.
    repeat (destruct (decide _)); cbn; split;
      first [done | apply fresh_ids_nil].
Qed.

Lemma after_well_formed (evs : list UiEvent) : Ui.well_formed (Ui.after evs).
Proof.
  unfold Ui.after. induction evs as [|ev evs IH] using rev_ind.
  - split; apply fresh_ids_nil.
  - rewrite foldl_app. cbn. by apply handle_well_formed.
Qed.

(** X5. Whatever the user has done, the ids of the scenes of the image
    storyboard are pairwise different and below [nextImageSceneId], and
    likewise for the video storyboard and [nextSceneId]: a slot of the page
    names one scene. *)
Theorem scene_ids_unique (evs : list UiEvent) :
  NoDup (State.id <$> State.imageStoryboardScenes (Ui.after evs)) ∧
  Forall (λ i, i < State.nextImageSceneId (Ui.after evs))
    (State.id <$> State.imageStoryboardScenes (Ui.after evs)) ∧
  NoDup (State.sid <$> State.storyboardScenes (Ui.after evs)) ∧
  Forall (λ i, i < State.nextSceneId (Ui.after evs))
    (State.sid <$> State.storyboardScenes (Ui.after evs)).
Proof.
  by destruct (after_well_formed evs) as [[? ?] [? ?]].
Qed.

Lemma filter_ne_all {A : Type} (key : A → Z) (x : Z) (l : list A) :
  x ∉ key <$> l → filter (λ s, key s ≠ x) l = l.
Proof.
  induction l as [|s l IH]; [done|]. cbn [fmap list_fmap].
  intros [Hs Hl]%not_elem_of_cons.
  rewrite filter_cons_True by done. by rewrite IH.
Qed.

Lemma filter_ne_one {A : Type} (key : A → Z) (l1 l2 : list A) (sc : A) :
  NoDup (key <$> (l1 ++ sc :: l2)) →
  filter (λ s, key s ≠ key sc) (l1 ++ sc :: l2) = l1 ++ l2.
Proof.
  rewrite fmap_app, fmap_cons. intros Hnd.
  apply NoDup_app in Hnd as (_ & Hcross & Hnd2).
  apply NoDup_cons in Hnd2 as [Hsc _].
  rewrite filter_app, filter_cons_False by (intros Hn; by apply Hn).
  rewrite !filter_ne_all; [done|done|].
  intros Hin. apply (Hcross _ Hin). left.
Qed.

(** X6. Whatever the user has done before, removing a scene of the image
    storyboard takes out that scene and leaves the others in their order;
    with an id that no scene has, the state is left as it is. *)
Theorem remove_image_scene_exact (evs : list UiEvent) (sceneId : Z) :
  (sceneId ∉ State.id <$> State.imageStoryboardScenes (Ui.after evs) →
   Ui.handle (Ui.RemoveImageScene sceneId) (Ui.after evs) = Ui.after evs) ∧
  (∀ sc, sc ∈ State.imageStoryboardScenes (Ui.after evs) →
     State.id sc = sceneId →
     ∃ l1 l2,
       State.imageStoryboardScenes (Ui.after evs) = l1 ++ sc :: l2 ∧
       State.imageStoryboardScenes
         (Ui.handle (Ui.RemoveImageScene sceneId) (Ui.after evs))
       = l1 ++ l2).
Proof.
  destruct (after_well_formed evs) as [[Hnd _] _].
  split.
  - intros Hnot. cbn. unfold State.removeImageStoryboardScene.
    rewrite filter_ne_all by done. by destruct (Ui.after evs).
  - intros sc (l1 & l2 & Heq)%list_elem_of_split <-.
    exists l1, l2. split; [done|]. cbn. rewrite Heq in *.
    by apply filter_ne_one.
Qed.

Lemma find_update_first_same {A : Type} (p : A → bool) (f : A → A)
    (l : list A) :
  (∀ s, p (f s) = p s) →
  State.find p (State.update_first p f l) = f <$> State.find p l.
Proof.
  intros Hp. induction l as [|s l IH]; [done|]. cbn.
  destruct (p s) eqn:Hs; cbn; [by rewrite Hp, Hs|by rewrite Hs].
Qed.

Lemma find_update_first_other {A : Type} (p q : A → bool) (f : A → A)
    (l : list A) :
  (∀ s, q (f s) = q s) →
  (∀ s, p s = true → q s = false) →
  State.find q (State.update_first p f l) = State.find q l.
Proof.
  intros Hq Hpq. induction l as [|s l IH]; [done|]. cbn.
  destruct (p s) eqn:Hs; cbn.
  - by rewrite Hq, (Hpq s Hs).
  - by rewrite IH.
Qed.

(** X7. After [updateImageStoryboardScenePrompt(sceneId, p)] the scene
    found under [sceneId] is the one found before, with the prompt [p];
    under any other id the same scene is found as before; and the ids of
    the array are the same, in the same order.  When no scene has the id,
    nothing is found before or after. *)
Theorem update_prompt_lookup (st : Store) (sceneId other : Z) (p : list N) :
  State.find (λ s, State.id s =? sceneId)
    (State.imageStoryboardScenes
       (State.updateImageStoryboardScenePrompt sceneId p st))
  = (λ s, State.mkImageScene (State.id s) p) <$>
      State.find (λ s, State.id s =? sceneId)
        (State.imageStoryboardScenes st) ∧
  (other ≠ sceneId →
   State.find (λ s, State.id s =? other)
     (State.imageStoryboardScenes
        (State.updateImageStoryboardScenePrompt sceneId p st))
   = State.find (λ s, State.id s =? other) (State.imageStoryboardScenes st)) ∧
  State.id <$> State.imageStoryboardScenes
                 (State.updateImageStoryboardScenePrompt sceneId p st)
  = State.id <$> State.imageStoryboardScenes st.
Proof.
  cbn. split; [by apply find_update_first_same|]. split.
  - intros Hne. apply find_update_first_other; [done|].
    intros s Hs%Z.eqb_eq. apply Z.eqb_neq. cbn in *. congruence.
  - by apply fmap_update_first.
Qed.

Lemma update_first_comm {A : Type} (p q : A → bool) (f g : A → A)
    (l : list A) :
  (∀ s, p (g s) = p s) → (∀ s, q (f s) = q s) → (∀ s, f (g s) = g (f s)) →
  State.update_first p f (State.update_first q g l)
  = State.update_first q g (State.update_first p f l).
Proof.
  intros Hp Hq Hfg. induction l as [|s l IH]; [done|]. cbn.
  destruct (p s) eqn:Hps, (q s) eqn:Hqs; cbn;
    rewrite ?Hp, ?Hq, ?Hps, ?Hqs, ?Hfg, ?IH; done.
Qed.

Lemma update_first_none {A : Type} (p : A → bool) (f : A → A) (l : list A) :
  Forall (λ s, p s = false) l → State.update_first p f l = l.
Proof.
  induction 1 as [|s l Hs _ IH]; [done|]. cbn. by rewrite Hs, IH.
Qed.

(** X8. The file of a scene is stored when it has been read, which may
    be after the prompt of that or another scene was typed; the order does
    not matter: the two listeners write different properties of the scene,
    and the state is the same either way. *)
Theorem scene_file_and_prompt_commute (st : Store) (i j : Z) (f : File)
    (b : option (list N)) (m v : list N) :
  Ui.handle (Ui.InputScene j v) (Ui.handle (Ui.SceneFileRead i f b m) st)
  = Ui.handle (Ui.SceneFileRead i f b m) (Ui.handle (Ui.InputScene j v) st).
Proof.
  destruct st as [am assets pi mi fi iscenes inext vscenes vnext].
  cbn. unfold State.updateStoryboardScene, State.setStoryboard. cbn.
  f_equal. apply update_first_comm; by intros [].
Qed.

(** The id [i] is free: no scene of the video storyboard has it, and the
    scenes to come will not have it. *)
Lemma handle_keeps_free (ev : UiEvent) (st : Store) (i : Z) :
  Ui.keeps_storyboard ev →
  (i ∉ State.sid <$> State.storyboardScenes st) ∧ i < State.nextSceneId st →
  (i ∉ State.sid <$> State.storyboardScenes (Ui.handle ev st)) ∧
  i < State.nextSceneId (Ui.handle ev st).
Proof.
  intros Hev [Hnot Hlt].
  destruct ev as [|x|x v| |x|x f b m|x v|mode|[| |] b]; cbn; try done.
  - split; [|lia]. rewrite fmap_app. cbn.
    intros [?| ->%list_elem_of_singleton]%elem_of_app; [done|lia].
  - split; [|done]. rewrite fmap_filter_ne.
    by intros [_ ?]%list_elem_of_filter.
  - split; [|done]. by rewrite fmap_update_first.
  - split; [|done]. by rewrite fmap_update_first.
  - cbn in Hev. subst mode. unfold Ui.clearOtherModeInputs.
    destruct (decide (Js.lit "video-storyboard" ≠ Js.lit "video-storyboard"))
      as [Hne|_]; [done|].
    by repeat (destruct (decide _)).
Qed.

(** X9. The reading of a file may end after its scene was removed.  As
    long as the storyboard has not been reset since the removal, whatever
    else the user has done, the file is stored nowhere: the state is left
    as it is.  The ids of the scenes start again from 0 after a reset,
    though: once a click in the sidebar on another mode has reset the
    storyboard and a scene has been added, a late reading for the id 0 is
    stored in the new scene. *)
Theorem file_read_after_removal (st : Store) (i : Z) (f : File)
    (b : option (list N)) (m : list N) (evs : list UiEvent) :
  i < State.nextSceneId st →
  Forall Ui.keeps_storyboard evs →
  Ui.handle (Ui.SceneFileRead i f b m)
    (foldl (λ st ev, Ui.handle ev st) (Ui.handle (Ui.RemoveScene i) st) evs)
  = foldl (λ st ev, Ui.handle ev st) (Ui.handle (Ui.RemoveScene i) st) evs
  ∧ ∀ mode, mode ≠ Js.lit "video-storyboard" →
      State.storyboardScenes
        (Ui.handle (Ui.SceneFileRead 0 f b m)
           (Ui.handle Ui.AddScene (Ui.handle (Ui.SidebarClick mode) st)))
      = [State.mkScene 0 (Some f) b (Some m) []].
Proof.
  intros Hlt Hevs. split.
  - assert ((i ∉ State.sid <$> State.storyboardScenes
                    (foldl (λ st ev, Ui.handle ev st)
                       (Ui.handle (Ui.RemoveScene i) st) evs)) ∧
            i < State.nextSceneId
                  (foldl (λ st ev, Ui.handle ev st)
                     (Ui.handle (Ui.RemoveScene i) st) evs)) as [Hfree _].
    { induction evs as [|ev evs IH] using rev_ind.
      - cbn. split; [|done]. rewrite fmap_filter_ne.
        by intros [? _]%list_elem_of_filter.
      - apply Forall_app in Hevs as [Hevs Hev].
        rewrite foldl_app. cbn [foldl].
        apply handle_keeps_free; [by inversion Hev|by apply IH]. }
    destruct (foldl _ _ evs)
      as [am assets pi mi fi iscenes inext vscenes vnext].
    cbn in *. unfold State.updateStoryboardScene, State.setStoryboard. cbn.
    f_equal. apply update_first_none, Forall_forall.
    intros s Hs. apply Z.eqb_neq. intros Heq. apply Hfree.
    rewrite <- Heq. by apply list_elem_of_fmap_2.
  - intros mode Hmode. cbn. unfold Ui.clearOtherModeInputs.
    destruct (decide (mode ≠ Js.lit "video-storyboard")) as [_|Hn]; [|done].
    by repeat (destruct (decide _)).
Qed.

Lemma modes_distinct :
  Js.lit "image-studio" ≠ Js.lit "image-storyboard" ∧
  Js.lit "image-studio" ≠ Js.lit "video-storyboard" ∧
  Js.lit "image-storyboard" ≠ Js.lit "video-storyboard".
Proof. repeat split; intros H; vm_compute in H; discriminate. Qed.

(** X10. A click in the sidebar leaves at most one of the two scene
    arrays with scenes, empties the list of generated assets, and keeps
    the three uploaded images exactly when the mode clicked is
    'image-studio' or 'image-storyboard'; any other mode sets them to the
    empty string. *)
Theorem sidebar_click_resets (st : Store) (mode : list N) :
  State.activeMode (Ui.handle (Ui.SidebarClick mode) st) = mode ∧
  State.generatedAssetUrls (Ui.handle (Ui.SidebarClick mode) st) = [] ∧
  (State.imageStoryboardScenes (Ui.handle (Ui.SidebarClick mode) st) = [] ∨
   State.storyboardScenes (Ui.handle (Ui.SidebarClick mode) st) = []) ∧
  (mode = Js.lit "image-studio" ∨ mode = Js.lit "image-storyboard" →
   State.productImageBase64 (Ui.handle (Ui.SidebarClick mode) st)
     = State.productImageBase64 st ∧
   State.modelImageBase64 (Ui.handle (Ui.SidebarClick mode) st)
     = State.modelImageBase64 st ∧
   State.faceImageBase64 (Ui.handle (Ui.SidebarClick mode) st)
     = State.faceImageBase64 st) ∧
  (mode ≠ Js.lit "image-studio" → mode ≠ Js.lit "image-storyboard" →
   State.productImageBase64 (Ui.handle (Ui.SidebarClick mode) st) = [] ∧
   State.modelImageBase64 (Ui.handle (Ui.SidebarClick mode) st) = [] ∧
   State.faceImageBase64 (Ui.handle (Ui.SidebarClick mode) st) = []).
Proof.
  destruct modes_distinct as (H12 & H13 & H23).
  cbn [Ui.handle]. unfold Ui.clearOtherModeInputs.
  destruct st as [am assets pi mi fi iscenes inext vscenes vnext].
  cbn [State.setActiveMode State.activeMode].
  repeat case_decide; cbn; repeat split; intros;
    destruct_and?; destruct_or?; subst; try done; try tauto;
    try (by left); try (by right).
  all: repeat match goal with
       | H : ¬ (_ ≠ _) |- _ => apply dec_stable in H; subst
       | H : ¬ (_ ∧ _) |- _ => apply not_and_l in H as [H|H]
       end; try done; try tauto.
Qed.

End StoreFacts.

(** * The schedule of the backoff executor *)

Section BackoffSchedule.

Import Backoff.

Context {T Err World : Type}.
Variable fn : World → @Attempt T Err * World.
Variable sleep : Z → World → World.

Abbreviation Observer := (@Observer Err World).
Abbreviation Event := (@Event T Err).

Lemma doubling_S delay n :
  BackoffTrace.doubling delay (S n)
  = delay :: BackoffTrace.doubling (delay * 2) n.
Proof.
  unfold BackoffTrace.doubling. cbn [seq fmap list_fmap]. f_equal.
  - cbn. lia.
  - rewrite <- fmap_S_seq, <- list_fmap_compose. apply list_fmap_ext.
    intros _ k _. cbn. rewrite Nat2Z.inj_succ, Z.pow_succ_r by lia. lia.
Qed.

Lemma notify_log (onRetry : option Observer) attempt e delay w
    (log : list Event) :
  (notify onRetry attempt e delay w (log ++ [Invoked attempt (Threw e)])).2
    ++ [Slept delay]
  = log ++ BackoffTrace.round onRetry attempt e delay.
Proof.
  unfold BackoffTrace.round. destruct onRetry; cbn; by rewrite <- !app_assoc.
Qed.

(** The events of a run of the loop entered at [attempt] with [delay]. *)
Lemma retry_loop_schedule fuel retries (onRetry : option Observer)
    attempt delay w log run :
  retry_loop fn sleep fuel retries onRetry attempt delay w log = Some run →
  ∃ new,
    events run = log ++ new ∧
    (retries < attempt → new = []) ∧
    (attempt ≤ retries →
       ∃ m : nat,
         length (filter (λ ev, is_invoked ev = true) new) = S m ∧
         Z.of_nat (S m) ≤ retries - attempt + 1 ∧
         omap BackoffTrace.slept_delay new = BackoffTrace.doubling delay m ∧
         omap notified_delay new
           = (if onRetry is Some _ then BackoffTrace.doubling delay m else []) ∧
         (∀ e, outcome run = Reject (Caught e) →
               Z.of_nat (S m) = retries - attempt + 1)).
Proof.
  revert attempt delay w log.
  induction fuel as [|fuel IH]; intros attempt delay w log Hrun; [done|].
  cbn [retry_loop] in Hrun.
  destruct (Z.leb_spec attempt retries) as [Hle|Hgt].
  2:{ injection Hrun as <-. exists []. cbn. rewrite app_nil_r.
      split; [done|]. split; [done|lia]. }
  destruct (fn w) as [[v|e] w1].
  - injection Hrun as <-. eexists. split; [done|]. split; [lia|].
    intros _. exists 0%nat. cbn. repeat split; try done; [lia|].
    by destruct onRetry.
  - destruct (Z.eqb_spec attempt retries) as [->|Hne].
    + injection Hrun as <-. eexists. split; [done|]. split; [lia|].
      intros _. exists 0%nat. cbn. repeat split; try done; try lia.
      by destruct onRetry.
    + destruct (notify onRetry attempt e delay w1
                  (log ++ [Invoked attempt (Threw e)])) as [w2 log2] eqn:Hn.
      pose proof (notify_log onRetry attempt e delay w1 log) as Hlog.
      rewrite Hn in Hlog. cbn [snd] in Hlog. rewrite Hlog in Hrun.
      apply IH in Hrun as (new & Hev & _ & Hin).
      destruct Hin as (m & Hm & Hle' & Hs & Hnd & Hrej); [lia|].
      exists (BackoffTrace.round onRetry attempt e delay ++ new).
      split; [by rewrite Hev, <- app_assoc|]. split; [lia|].
      intros _. exists (S m).
      unfold BackoffTrace.round. destruct onRetry as [cb|]; cbn [app];
        rewrite ?filter_cons_True, ?filter_cons_False by done;
        cbn [length omap list_omap BackoffTrace.slept_delay notified_delay];
        rewrite doubling_S, ?Hm, ?Hs, ?Hnd;
        repeat split; try lia;
        intros e' He'; specialize (Hrej _ He'); lia.
Qed.

End BackoffSchedule.

(** * The backoff executor with any observer *)

Section ObservedSchedule.

Import Observed.

Context {T Err World : Type}.
Variable fn : World → @Backoff.Attempt T Err * World.
Variable sleep : Z → World → World.

Abbreviation AnyObserver := (@Observed.Observer Err World).
Abbreviation BEvent := (@Backoff.Event T Err).
Abbreviation count :=
  (λ l : list BEvent, length (filter (λ ev, Backoff.is_invoked ev = true) l)).

(** With an observer that returns, the executor is the one of [Backoff]. *)
Lemma retry_loop_returning fuel retries
    (onRetry : option (@Backoff.Observer Err World)) attempt delay w log :
  Observed.retry_loop fn sleep fuel retries (returning <$> onRetry)
    attempt delay w log
  = of_run <$> Backoff.retry_loop fn sleep fuel retries onRetry
                 attempt delay w log.
Proof.
  revert attempt delay w log.
  induction fuel as [|fuel IH]; intros attempt delay w log; [done|].
  cbn [Observed.retry_loop Backoff.retry_loop].
  destruct (attempt <=? retries); [|done].
  destruct (fn w) as [[v|e] w1]; [done|].
  destruct (attempt =? retries); [done|].
  destruct onRetry as [cb|]; cbn; apply IH.
Qed.

(** The events of a run of the loop entered at [attempt] with [delay],
    and the world it leaves. *)
Lemma observed_schedule fuel retries (onRetry : option AnyObserver)
    attempt delay w log run :
  Observed.retry_loop fn sleep fuel retries onRetry attempt delay w log
    = Some run →
  ∃ new,
    events run = log ++ new ∧
    world run = foldl (replay fn sleep onRetry) w new ∧
    (retries < attempt → new = [] ∧ exit run = MaxRetries) ∧
    (attempt ≤ retries →
       ∃ m : nat,
         count new = S m ∧
         Z.of_nat (S m) ≤ retries - attempt + 1 ∧
         exit run ≠ MaxRetries ∧
         omap BackoffTrace.slept_delay new = BackoffTrace.doubling delay m ∧
         omap Backoff.notified_delay new
           = match onRetry, exit run with
             | None, _ => []
             | Some _, FromObserver _ => BackoffTrace.doubling delay (S m)
             | Some _, _ => BackoffTrace.doubling delay m
             end ∧
         (∀ e, exit run = Rethrow e →
               Z.of_nat (S m) = retries - attempt + 1) ∧
         (∀ x, exit run = FromObserver x →
               Z.of_nat (S m) < retries - attempt + 1 ∧
               ∃ cb e w1,
                 onRetry = Some cb ∧
                 cb (attempt + Z.of_nat m) e (delay * 2 ^ Z.of_nat m) w1
                   = (Throws x, world run))).
Proof.
  revert attempt delay w log.
  induction fuel as [|fuel IH]; intros attempt delay w log Hrun; [done|].
  cbn [Observed.retry_loop] in Hrun.
  destruct (Z.leb_spec attempt retries) as [Hle|Hgt].
  2:{ injection Hrun as <-. exists []. cbn. rewrite app_nil_r.
      split; [done|]. split; [done|]. split; [done|lia]. }
  destruct (fn w) as [[v|e] w1] eqn:Hfn.
  - injection Hrun as <-. eexists. split; [done|]. cbn [foldl replay].
    rewrite Hfn. split; [done|]. split; [lia|].
    intros _. exists 0%nat. cbn. repeat split; try done; try lia.
    by destruct onRetry.
  - destruct (Z.eqb_spec attempt retries) as [->|Hne].
    + injection Hrun as <-. eexists. split; [done|]. cbn [foldl replay].
      rewrite Hfn. split; [done|]. split; [lia|].
      intros _. exists 0%nat. cbn. repeat split; try done; try lia.
      by destruct onRetry.
    + destruct onRetry as [cb|].
      * destruct (cb attempt e delay w1) as [[|x] w2] eqn:Hcb.
        -- rewrite <- !app_assoc in Hrun. cbn [app] in Hrun.
           apply IH in Hrun as (new & Hev & Hw & _ & Hin).
           destruct Hin as (m & Hm & Hle' & Hx & Hs & Hnd & Hrej & Hobs);
             [lia|].
           exists ([Backoff.Invoked attempt (Backoff.Threw e);
                    Backoff.Notified attempt e delay; Backoff.Slept delay]
                   ++ new).
           split; [by rewrite Hev, <- app_assoc|].
           split; [rewrite foldl_app; cbn [foldl replay]; rewrite Hfn;
                   cbn [snd]; by rewrite Hcb|].
           split; [lia|]. intros _. exists (S m).
           cbn [app]. rewrite filter_cons_True, !filter_cons_False by done.
           cbn [length omap list_omap BackoffTrace.slept_delay
                  Backoff.notified_delay].
           rewrite !doubling_S, Hm, Hs, Hnd.
           split; [done|]. split; [lia|]. split; [done|]. split; [done|].
           split; [by destruct (exit run); rewrite ?doubling_S|].
           split; [intros e' He'; specialize (Hrej _ He'); lia|].
           intros x Hex. destruct (Hobs x Hex) as (Hlt & cb' & e' & w' & Hcb' & Hthrow).
           split; [lia|]. exists cb', e', w'. split; [done|].
           rewrite <- Hthrow. f_equal; [lia|].
           rewrite Nat2Z.inj_succ, Z.pow_succ_r by lia. lia.
        -- injection Hrun as <-.
           exists [Backoff.Invoked attempt (Backoff.Threw e);
                   Backoff.Notified attempt e delay].
           split; [by rewrite <- app_assoc|].
           split; [cbn [foldl replay]; rewrite Hfn; cbn [snd];
                   by rewrite Hcb|].
           split; [lia|]. intros _. exists 0%nat. cbn.
           split; [done|]. split; [lia|]. split; [done|]. split; [done|].
           split; [unfold BackoffTrace.doubling; cbn; f_equal; lia|].
           split; [done|]. intros x' [= <-]. split; [lia|].
           exists cb, e, w1. split; [done|].
           rewrite Z.add_0_r, Z.mul_1_r. done.
      * rewrite <- !app_assoc in Hrun. cbn [app] in Hrun.
        apply IH in Hrun as (new & Hev & Hw & _ & Hin).
        destruct Hin as (m & Hm & Hle' & Hx & Hs & Hnd & Hrej & Hobs); [lia|].
        exists ([Backoff.Invoked attempt (Backoff.Threw e);
                 Backoff.Slept delay] ++ new).
        split; [by rewrite Hev, <- app_assoc|].
        split; [rewrite foldl_app; cbn [foldl replay]; by rewrite Hfn|].
        split; [lia|]. intros _. exists (S m).
        cbn [app]. rewrite filter_cons_True, !filter_cons_False by done.
        cbn [length omap list_omap BackoffTrace.slept_delay
               Backoff.notified_delay].
        rewrite !doubling_S, Hm, Hs, Hnd.
        split; [done|]. split; [lia|]. split; [done|]. split; [done|].
        split; [done|].
        split; [intros e' He'; specialize (Hrej _ He'); lia|].
        intros x Hex. by destruct (Hobs x Hex) as (_ & cb' & e' & w' & ? & _).
Qed.



End ObservedSchedule.

(** * Properties of the image and video generation *)

Section ApiFacts.

Import Api.

Context {File W : Type}.
Variable generateContent : list ReqPart → W → (Response + Js.Value) * W.
Variable sleep : Z → W → W.
Variable now : W → Z.
Variable store : W → @State.Store File.

Abbreviation image_from :=
  (generateImageWithPrompt_from generateContent sleep now store).
Abbreviation ApiEvent := (@Api.Event).
Abbreviation image_post := (Api.image_post generateContent).
Abbreviation unreadable_rejection :=
  (Api.unreadable_rejection generateContent).

Lemma lit_cons_ne (s : string) (t : list N) :
  s ≠ EmptyString → Js.lit s ++ t ≠ [].
Proof. destruct s; [done|]. by cbn. Qed.

(** What the [catch] throws is a fresh [Error] with one of its three
    messages. *)
Lemma image_failure_reported (error : Js.Error) :
  reported (image_failure error).
Proof.
  unfold image_failure, reported. cbn [Js.json Js.message Js.new_Error].
  split; [done|].
  destruct (quota (Js.json error)); [by left|].
  destruct (Js.message error) as [|c m] eqn:Hm; cbn [Js.truthy].
  - by right; right.
  - right; left. by exists (c :: m).
Qed.

Lemma reported_message (e : Js.Error) : reported e → Js.message e ≠ [].
Proof.
  intros [_ [->|[(m & _ & ->)| ->]]]; done.
Qed.

(** A [TypeError] raised inside a [catch] is a fresh [Error] with a
    message. *)
Lemma raised_fresh (e : Js.Error) :
  Js.raised e → Js.json e = Js.lit "{}" ∧ Js.message e ≠ [].
Proof.
  intros [->|[->|[->|[detail ->]]]]; by split.
Qed.

Lemma caught_raised (classify : Js.Error → Js.Error) (v : Js.Value) :
  (∀ e0, v ≠ Js.Readable e0) → Js.raised (Js.caught classify v).
Proof.
  intros Hv. destruct v as [e0| | | |detail]; cbn.
  - by destruct (Hv e0).
  - by left.
  - by right; left.
  - by right; right; left.
  - right; right; right. by eexists.
Qed.

(** Whatever the [catch] of [generateImageWithPrompt] gets, it throws a
    fresh [Error] with a message. *)
Lemma image_catch_fresh (v : Js.Value) :
  Js.json (image_catch v) = Js.lit "{}" ∧ Js.message (image_catch v) ≠ [].
Proof.
  destruct v as [e0| | | |detail]; try by split.
  split; [done|]. apply reported_message, image_failure_reported.
Qed.

Lemma image_failed_fresh (e : Js.Error) :
  reported e ∨ unreadable_rejection e →
  Js.json e = Js.lit "{}" ∧ Js.message e ≠ [].
Proof.
  intros [Hr|(parts & w & v & w' & _ & _ & ->)].
  - split; [apply Hr|by apply reported_message].
  - apply image_catch_fresh.
Qed.

(** An [Error] the function makes itself is reported with its message
    after 'Error: ', whatever the message says. *)
Lemma image_failure_new_Error (msg : list N) :
  msg ≠ [] →
  image_failure (Js.new_Error msg) = Js.new_Error (Js.lit "Error: " ++ msg).
Proof.
  intros Hmsg. unfold image_failure. cbn [Js.json Js.message Js.new_Error].
  replace (quota (Js.lit "{}")) with false by (by vm_compute).
  by destruct msg.
Qed.

Lemma image_failure_twice (error : Js.Error) :
  image_failure (image_failure error)
  = Js.new_Error (Js.lit "Error: " ++ Js.message (image_failure error)).
Proof.
  change (image_failure error)
    with (Js.new_Error (Js.message (image_failure error))) at 1.
  apply image_failure_new_Error, reported_message, image_failure_reported.
Qed.

(** What the inner call has thrown goes through the [catch] of the
    outer call. *)
Lemma image_catch_twice (v : Js.Value) :
  image_failure (image_catch v)
  = Js.new_Error (Js.lit "Error: " ++ Js.message (image_catch v)).
Proof.
  destruct (image_catch_fresh v) as [Hjson Hmsg].
  destruct (image_catch v) as [msg json] eqn:Hv. cbn in *. subst json.
  by apply image_failure_new_Error.
Qed.

Lemma image_parts_shape (st : @State.Store File) prompt aspectRatio model
    product :
  request_shape (image_parts st prompt aspectRatio model product).
Proof.
  unfold image_parts, request_shape.
  set (productImg := match product with
                     | Undefined => State.productImageBase64 st
                     | Null => []
                     | Str s => s
                     end).
  exists ((if Js.truthy productImg then [productImg] else []) ++
          (if Js.truthy model then [model] else []) ++
          (if Js.truthy (State.faceImageBase64 st) &&
              bool_decide (State.activeMode st = Js.lit "image-studio")
           then [State.faceImageBase64 st] else [])).
  eexists. split; [|split].
  - rewrite !fmap_app, <- !app_assoc.
    by repeat (case_match; cbn [fmap list_fmap app]).
  - rewrite !Forall_app. repeat split.
    + destruct productImg; cbn; by repeat constructor.
    + destruct model; cbn; by repeat constructor.
    + destruct (State.faceImageBase64 st); cbn; [done|].
      case_match; by repeat constructor.
  - rewrite !length_app.
    repeat (case_match; cbn [length]); lia.
Qed.

Lemma requests_app (l1 l2 : list ApiEvent) :
  requests (l1 ++ l2) = requests l1 ++ requests l2.
Proof. apply omap_app. Qed.

Lemma waits_app (l1 l2 : list ApiEvent) :
  waits (l1 ++ l2) = waits l1 ++ waits l2.
Proof. apply omap_app. Qed.

(** The depth of the calls of the function to itself is at most
    [MAX_RETRIES - retryCount + 1]. *)
Lemma image_from_total fuel prompt aspectRatio model product retryCount w log :
  Z.max 0 (MAX_RETRIES - retryCount) < Z.of_nat fuel →
  is_Some (image_from fuel prompt aspectRatio model product retryCount w log).
Proof.
  revert prompt retryCount w log.
  induction fuel as [|fuel IH]; intros prompt retryCount w log Hfuel; [lia|].
  cbn [generateImageWithPrompt_from].
  destruct (generateContent _ w) as [[response|error] w1]; [|by eexists].
  destruct (candidates response) as [[|[ps|msg] rest]|]; try by eexists.
  destruct (State.find has_inlineData ps ≫= inlineData); [by eexists|].
  destruct (State.find has_text ps); [|by eexists].
  destruct (Z.ltb_spec retryCount MAX_RETRIES); [|by eexists].
  edestruct IH as [[[r w3] log3] ->]; [|destruct r; by eexists]. lia.
Qed.

Lemma image_post_one retryCount (log : list ApiEvent) parts r :
  request_shape parts →
  (∀ e, r = Failed e → reported e ∨ unreadable_rejection e) →
  image_post retryCount log r (log ++ [Requested parts]).
Proof.
  intros Hshape Hr. exists [Requested parts], 0%nat.
  split; [done|]. split; [done|]. split; [lia|]. split; [done|].
  split; [by repeat constructor|done].
Qed.

Lemma image_post_retry retryCount (log : list ApiEvent) parts html r log' :
  retryCount < MAX_RETRIES →
  request_shape parts →
  image_post (retryCount + 1)
    (((log ++ [Requested parts]) ++ [Shown html]) ++ [Waited 1000]) r log' →
  ∀ r', (r' = r ∨ ∃ e, r = Failed e ∧ r' = Failed (image_failure e)) →
  image_post retryCount log r' log'.
Proof.
  intros Hlt Hshape (new & k & -> & Hk & Hle & Hw & Hreq & Herr) r' Hr'.
  exists ([Requested parts; Shown html; Waited 1000] ++ new), (S k).
  split; [by rewrite <- !app_assoc|].
  rewrite requests_app, waits_app.
  change (requests [Requested parts; Shown html; Waited 1000]) with [parts].
  change (waits [Requested parts; Shown html; Waited 1000]) with [1000].
  cbn [app length]. rewrite Hk, Hw.
  split; [done|]. split; [unfold MAX_RETRIES in *; lia|]. split; [done|].
  split; [by constructor|].
  intros e ->. destruct Hr' as [<-|(e3 & -> & [= ->])]; [by apply Herr|].
  left. apply image_failure_reported.
Qed.

(** What a call adds to the log, and what it fails with. *)
Lemma image_from_spec fuel prompt aspectRatio model product retryCount
    w log r w' log' :
  image_from fuel prompt aspectRatio model product retryCount w log
    = Some (r, w', log') →
  image_post retryCount log r log'.
Proof.
  revert prompt retryCount w log r w' log'.
  induction fuel as [|fuel IH];
    intros prompt retryCount w log r w' log' Hrun; [done|].
  cbn [generateImageWithPrompt_from] in Hrun.
  pose proof (image_parts_shape (store w) prompt aspectRatio model product)
    as Hshape.
  assert (∀ e, (∀ e', Failed (A := State.Asset) (image_failure e) = Failed e'
                      → reported e' ∨ unreadable_rejection e')) as Hrep.
  { intros e e' [= <-]. left. apply image_failure_reported. }
  destruct (generateContent _ w) as [[response|error] w1] eqn:Hcall.
  2:{ injection Hrun as <- <- <-.
      apply image_post_one; [done|]. intros e' [= <-].
      destruct error as [e0| | | |detail];
        [left; apply image_failure_reported|right..];
        (eexists _, _, _, _; split; [exact Hcall|]; by split). }
  destruct (candidates response) as [[|[ps|msg] rest]|];
    try (injection Hrun as <- <- <-;
     apply image_post_one; [done|first [apply Hrep|done]]).
  destruct (State.find has_inlineData ps ≫= inlineData) as [data|].
  { injection Hrun as <- <- <-.
      apply image_post_one; [done|first [apply Hrep|done]]. }
  destruct (State.find has_text ps) as [tp|];
    [|injection Hrun as <- <- <-;
     apply image_post_one; [done|first [apply Hrep|done]]].
  destruct (Z.ltb_spec retryCount MAX_RETRIES) as [Hlt|Hge];
    [|injection Hrun as <- <- <-;
     apply image_post_one; [done|first [apply Hrep|done]]].
  destruct (image_from fuel _ _ _ _ _ _ _) as [[[r3 w3] log3]|] eqn:Hrec;
    [|done].
  apply IH in Hrec.
  destruct r3 as [a|e3]; injection Hrun as <- <- <-;
    (eapply image_post_retry; [done|done|done|]); eauto.
Qed.

(** X12. A call of [generateImageWithPrompt] settles, after at most
    [MAX_RETRIES - retryCount] calls of the function to itself: with
    [retryCount] left out it sends one request or two, and waits one second
    before the second.  Every request is made of the images, none of them
    empty and three at most, followed by one text. *)
Theorem image_generation_bounded prompt aspectRatio model product retryCount
    w log :
  ∃ r w' new,
    generateImageWithPrompt generateContent sleep now store prompt
      aspectRatio model product retryCount w log = Some (r, w', log ++ new) ∧
    (1 ≤ length (requests new))%nat ∧
    Z.of_nat (length (requests new))
      ≤ 1 + Z.max 0 (MAX_RETRIES - default 0 retryCount) ∧
    waits new = replicate (length (requests new) - 1) 1000 ∧
    Forall request_shape (requests new) ∧
    (retryCount = None → (length (requests new) ≤ 2)%nat).
Proof.
  unfold generateImageWithPrompt.
  destruct (image_from_total
              (S (Z.to_nat (MAX_RETRIES - default 0 retryCount)))
              prompt aspectRatio model product (default 0 retryCount) w log)
    as [[[r w'] log'] Hrun]; [lia|].
  rewrite Hrun.
  apply image_from_spec in Hrun
    as (new & k & -> & Hk & Hle & Hw & Hreq & _).
  exists r, w', new. rewrite Hk, Hw. cbn [Nat.sub]. rewrite Nat.sub_0_r.
  repeat split; try done; try lia.
  intros ->. unfold MAX_RETRIES in Hle. cbn in Hle. lia.
Qed.


(** X14. When the first answer is text without an image, the function
    calls itself once, with the note appended to the prompt; if that call
    fails, its error has already gone through the [catch] once and goes
    through it again: the message is 'Error: ' followed by the whole
    message of the inner call, so that a quota error of the second request
    is not reported with the quota message; and so for whatever value the
    second request is rejected with. *)
Theorem image_retry_failure_wrapped prompt aspectRatio model product w log
    response ps rest tp w1 e2 w2 :
  generateContent
    (image_parts (store w) prompt aspectRatio model product) w
    = (inl response, w1) →
  candidates response = Some (Parts ps :: rest) →
  State.find has_inlineData ps = None →
  State.find has_text ps = Some tp →
  generateContent
    (image_parts (store (sleep 1000 w1)) (prompt ++ RETRY_NOTE) aspectRatio
       model product) (sleep 1000 w1)
    = (inr e2, w2) →
  generateImageWithPrompt generateContent sleep now store prompt aspectRatio
    model product None w log
  = Some (Failed (Js.new_Error
                    (Js.lit "Error: " ++ Js.message (image_catch e2))),
          w2,
          log ++
          [Requested (image_parts (store w) prompt aspectRatio model product);
           Shown (Js.lit "<p>Model returned text. Modifying prompt and retrying...</p>");
           Waited 1000;
           Requested (image_parts (store (sleep 1000 w1))
                        (prompt ++ RETRY_NOTE) aspectRatio model product)]).
Proof.
  intros H1 Hc Hi Ht H2. unfold generateImageWithPrompt.
  change (S (Z.to_nat (MAX_RETRIES - default 0 None))) with 2%nat.
  cbn [generateImageWithPrompt_from default].
  rewrite H1, Hc, Hi, Ht. cbn [mbind option_bind].
  change (0 <? MAX_RETRIES) with true. cbn iota.
  rewrite H2, image_catch_twice. by rewrite <- !app_assoc.
Qed.

End ApiFacts.

Section VideoFacts.

Import Api.

Context {File W : Type}.
Variable sleep : Z → W → W.
Variable now : W → Z.
Variable generateVideos :
  list N → option (list N) → option (list N) → list N → W →
  (Operation + Js.Value) * W.
Variable getVideosOperation : Operation → W → (Operation + Js.Value) * W.
Variable fetchObjectUrl : list N → W → (list N + Js.Value) * W.
Variable apiKey : list N.

Abbreviation poll := (poll_loop sleep getVideosOperation).
Abbreviation video :=
  (generateVideoForScene (File := File) sleep now generateVideos
     getVideosOperation fetchObjectUrl apiKey).
Abbreviation ApiEvent := (@Api.Event).

Lemma polls_app (l1 l2 : list ApiEvent) :
  polls (l1 ++ l2) = (polls l1 + polls l2)%nat.
Proof. unfold polls. by rewrite omap_app, length_app. Qed.

Lemma shown_app (l1 l2 : list ApiEvent) :
  shown (l1 ++ l2) = shown l1 ++ shown l2.
Proof. apply omap_app. Qed.

Lemma video_waits_app (l1 l2 : list ApiEvent) :
  waits (l1 ++ l2) = waits l1 ++ waits l2.
Proof. apply omap_app. Qed.

(** What [n] passes through the loop add to the log, from message number
    [from] on. *)
Lemma rounds_shown from n :
  shown (concat ((λ k, [Shown (progress_html (from + k)); Waited 10000; Polled])
                   <$> seq 0 n))
  = (λ k, progress_html (from + k)) <$> seq 0 n.
Proof.
  induction n as [|n IH] using nat_ind; [done|].
  rewrite seq_S, !fmap_app, concat_app. unfold shown in *.
  rewrite omap_app, IH. cbn. done.
Qed.

Lemma rounds_waits from n :
  waits (concat ((λ k, [Shown (progress_html (from + k)); Waited 10000; Polled])
                   <$> seq 0 n))
  = replicate n 10000.
Proof.
  induction n as [|n IH]; [done|].
  rewrite seq_S, !fmap_app, concat_app. unfold waits in *.
  rewrite omap_app, IH. cbn.
  by rewrite <- replicate_cons_app.
Qed.

Lemma rounds_polls from n :
  polls (concat ((λ k, [Shown (progress_html (from + k)); Waited 10000; Polled])
                   <$> seq 0 n))
  = n.
Proof.
  induction n as [|n IH]; [done|].
  rewrite seq_S, !fmap_app, concat_app. unfold polls in *.
  rewrite omap_app, length_app, IH. cbn. lia.
Qed.

Lemma poll_loop_spec fuel operation from w log res w' log' :
  poll fuel operation from w log = Some (res, w', log') →
  ∃ n, (n ≤ fuel)%nat ∧
    log' = log ++
      concat ((λ k, [Shown (progress_html (from + k)); Waited 10000; Polled])
                <$> seq 0 n).
Proof.
  revert operation from w log.
  induction fuel as [|fuel IH]; intros operation from w log Hrun; [done|].
  cbn [poll_loop] in Hrun. destruct (done operation).
  - injection Hrun as <- <- <-. exists 0%nat. cbn. rewrite app_nil_r.
    split; [lia|done].
  - assert (∀ n, log ++
              concat ((λ k, [Shown (progress_html (from + k)); Waited 10000;
                             Polled]) <$> seq 0 (S n))
            = ((log ++ [Shown (progress_html from)]) ++ [Waited 10000; Polled])
              ++ concat ((λ k, [Shown (progress_html (S from + k));
                                Waited 10000; Polled]) <$> seq 0 n)) as Hshift.
    { intros n. change (seq 0 (S n)) with (0%nat :: seq 1 n).
      rewrite fmap_cons, concat_cons, Nat.add_0_r.
      rewrite <- fmap_S_seq, <- list_fmap_compose, <- !app_assoc.
      cbn [app]. do 5 f_equal. apply list_fmap_ext. intros _ k _.
      unfold compose. by rewrite Nat.add_succ_r. }
    destruct (getVideosOperation operation _) as [[operation'|error] w2].
    + apply IH in Hrun as (n & Hn & ->). exists (S n).
      split; [lia|]. by rewrite Hshift.
    + injection Hrun as <- <- <-. exists 1%nat.
      split; [lia|]. by rewrite (Hshift 0%nat), app_nil_r.
Qed.

(** X15. While the operation is not done, [generateVideoForScene] shows a
    progress message, waits ten seconds and asks again: in a call that
    settles, after [n] polls it has shown [n] messages, the five messages
    in turn, and has waited [n] times ten seconds. *)
Theorem video_polling fuel scene prompt aspectRatio w log r w' log' :
  video fuel scene prompt aspectRatio w log = Some (r, w', log') →
  ∃ new,
    log' = log ++ new ∧
    (polls new ≤ fuel)%nat ∧
    shown new = progress_html <$> seq 0 (polls new) ∧
    waits new = replicate (polls new) 10000 ∧
    (∀ k, progress_html (k + 5) = progress_html k).
Proof.
  intros Hrun. unfold generateVideoForScene in Hrun.
  assert (∀ k, progress_html (k + 5) = progress_html k) as Hcycle.
  { intros k. unfold progress_html. do 3 f_equal.
    change (length progressMessages) with 5%nat.
    rewrite <- (Nat.Div0.add_mod_idemp_r k 5 5). by rewrite Nat.add_0_r. }
  assert (∀ n tail,
            polls tail = 0%nat → shown tail = [] → waits tail = [] →
            let new := [VideoRequested prompt] ++
              concat ((λ k, [Shown (progress_html (0 + k)); Waited 10000;
                             Polled]) <$> seq 0 n) ++ tail in
            polls new = n ∧ shown new = progress_html <$> seq 0 n ∧
            waits new = replicate n 10000) as Hcount.
  { intros n tail Hp Hs Hw new. subst new.
    rewrite !polls_app, !shown_app, !video_waits_app, Hp, Hs, Hw.
    rewrite rounds_shown, rounds_waits, rounds_polls, !app_nil_r.
    change (polls [VideoRequested prompt]) with 0%nat.
    change (shown [VideoRequested prompt]) with (@nil (list N)).
    change (waits [VideoRequested prompt]) with (@nil Z).
    cbn [app]. split; [lia|]. split; [|done].
    apply list_fmap_ext. by intros _ k _. }
  destruct (generateVideos _ _ _ _ w) as [[operation|error] w1].
  2:{ injection Hrun as <- <- <-. exists [VideoRequested prompt].
      split; [done|]. split; [cbn; lia|]. by repeat split. }
  destruct (poll fuel operation 0 w1 _) as [[[res w2] log2]|] eqn:Hpoll;
    [|done].
  apply poll_loop_spec in Hpoll as (n & Hn & ->).
  assert (∀ tail,
            polls tail = 0%nat → shown tail = [] → waits tail = [] →
            ∃ new,
              ((log ++ [VideoRequested prompt]) ++
               concat ((λ k, [Shown (progress_html (0 + k)); Waited 10000;
                              Polled]) <$> seq 0 n)) ++ tail = log ++ new ∧
              (polls new ≤ fuel)%nat ∧
              shown new = progress_html <$> seq 0 (polls new) ∧
              waits new = replicate (polls new) 10000 ∧
              (∀ k, progress_html (k + 5) = progress_html k)) as Hnew.
  { intros tail Hp Hs Hw.
    destruct (Hcount n tail Hp Hs Hw) as (Hp' & Hs' & Hw').
    eexists. split; [by rewrite <- !app_assoc|].
    rewrite Hp', Hs', Hw'. by repeat split. }
  assert (∀ tail r0 w0,
            Some (r0, w0,
                  (log ++ [VideoRequested prompt]) ++
                  concat ((λ k, [Shown (progress_html (0 + k)); Waited 10000;
                                 Polled]) <$> seq 0 n) ++ tail)
              = Some (r, w', log') →
            polls tail = 0%nat → shown tail = [] → waits tail = [] →
            ∃ new,
              log' = log ++ new ∧ (polls new ≤ fuel)%nat ∧
              shown new = progress_html <$> seq 0 (polls new) ∧
              waits new = replicate (polls new) 10000 ∧
              (∀ k, progress_html (k + 5) = progress_html k)) as Hdone.
  { intros tail r0 w0 [= _ _ <-] Hp Hs Hw.
    destruct (Hnew tail Hp Hs Hw) as (new & Heq & ?).
    exists new. split; [|done]. by rewrite <- Heq, <- !app_assoc. }
  destruct res as [operation'|error].
  2:{ eapply (Hdone []); [rewrite app_nil_r; exact Hrun|done..]. }
  destruct (Js.truthy (uri operation')).
  - destruct (Js.truthy apiKey).
    + destruct (fetchObjectUrl _ w2) as [[videoUrl|error] w3];
        rewrite <- (app_assoc (log ++ [VideoRequested prompt])) in Hrun;
        (eapply Hdone; [exact Hrun|done..]).
    + eapply (Hdone []); [rewrite app_nil_r; exact Hrun|done..].
  - destruct (op_error operation');
      (eapply (Hdone []); [rewrite app_nil_r; exact Hrun|done..]).
Qed.

Lemma poll_loop_none fuel operation from w log :
  done operation = false →
  (∀ o v, ∃ o' v', getVideosOperation o v = (inl o', v') ∧ done o' = false) →
  poll fuel operation from w log = None.
Proof.
  intros Hd Hnever. revert operation from w log Hd.
  induction fuel as [|fuel IH]; intros operation from w log Hd; [done|].
  cbn [poll_loop]. rewrite Hd.
  destruct (Hnever operation (sleep 10000 w)) as (o' & v' & -> & Hd').
  by apply IH.
Qed.

(** X16. The polling has no limit of its own: when the operation is not
    done at first and no poll ever finds it done, the call has not settled
    after any number of polls. *)
Theorem video_polling_never_gives_up fuel scene prompt aspectRatio w log
    operation w1 :
  generateVideos prompt (State.base64 scene) (State.mimeType scene)
    aspectRatio w = (inl operation, w1) →
  done operation = false →
  (∀ o v, ∃ o' v', getVideosOperation o v = (inl o', v') ∧ done o' = false) →
  video fuel scene prompt aspectRatio w log = None.
Proof.
  intros Hstart Hd Hnever. unfold generateVideoForScene.
  rewrite Hstart. by rewrite poll_loop_none.
Qed.

(** An [Error] the function makes itself has the JSON text of an empty
    object: the [catch] reports it with its message after the scene. *)
Lemma video_failure_new_Error (sceneId : Z) (msg : list N) :
  msg ≠ [] →
  video_failure sceneId (Js.new_Error msg)
  = Js.new_Error (Js.lit "Error for Scene " ++ Js.show sceneId ++
                  Js.lit ": " ++ msg).
Proof.
  intros Hmsg. unfold video_failure. cbn [Js.json Js.message Js.new_Error].
  replace (Js.includes (Js.lit "Requested entity was not found")
             (Js.lit "{}")) with false by (by vm_compute).
  replace (quota (Js.lit "{}")) with false by (by vm_compute).
  by destruct msg.
Qed.

(** X17. When the operation is done without a link to a video, what the
    function throws in its [try] is caught by its own [catch]: the call
    rejects with 'Error for Scene n: ' followed by the message thrown,
    whatever the message of the operation's error says, a quota error
    included. *)
Theorem video_without_uri fuel scene prompt aspectRatio w log
    operation w1 final w2 log2 :
  generateVideos prompt (State.base64 scene) (State.mimeType scene)
    aspectRatio w = (inl operation, w1) →
  poll fuel operation 0%nat w1 (log ++ [VideoRequested prompt])
    = Some (inl final, w2, log2) →
  uri final = [] →
  video fuel scene prompt aspectRatio w log
  = Some (Failed
            (Js.new_Error
               (Js.lit "Error for Scene " ++ Js.show (State.sid scene) ++
                Js.lit ": " ++
                match op_error final with
                | Some msg =>
                    Js.lit "Video generation failed: " ++
                    Js.or_else msg (Js.lit "Unknown error")
                | None =>
                    Js.lit "Video generation finished but no video URI was returned."
                end)),
          w2, log2).
Proof.
  intros Hstart Hpoll Huri. unfold generateVideoForScene.
  rewrite Hstart, Hpoll, Huri. cbn [Js.truthy].
  unfold video_catch. cbn [Js.caught].
  destruct (op_error final) as [msg|].
  - by rewrite video_failure_new_Error by by apply lit_cons_ne.
  - by rewrite video_failure_new_Error by done.
Qed.

End VideoFacts.

(** * A scene of the image storyboard, and the batch of its tasks *)

Section BackoffWorld.

Import Backoff.

Context {T Err World : Type}.
Variable fn : World → @Attempt T Err * World.
Variable sleep : Z → World → World.

(** The executor changes the world through the operation, the observer and
    the sleep only: a quantity that each invocation raises by [c] at most
    and that neither the observer nor the sleep raises has grown by at
    most [c] for each attempt allowed. *)
Lemma retry_loop_world_measure (μ : World → Z) (c : Z) fuel retries
    (onRetry : option (@Observer Err World)) attempt delay w log run :
  0 ≤ c →
  (∀ w, μ (fn w).2 ≤ μ w + c) →
  (∀ d w, μ (sleep d w) ≤ μ w) →
  (∀ cb a e d w, onRetry = Some cb → μ (cb a e d w) ≤ μ w) →
  retry_loop fn sleep fuel retries onRetry attempt delay w log = Some run →
  μ (world run) ≤ μ w + c * Z.max 0 (retries - attempt + 1).
Proof.
  intros Hc Hfn Hsleep Hcb. revert attempt delay w log.
  induction fuel as [|fuel IH]; intros attempt delay w log Hrun; [done|].
  cbn [retry_loop] in Hrun.
  destruct (Z.leb_spec attempt retries) as [Hle|Hgt].
  2:{ injection Hrun as <-. cbn. nia. }
  specialize (Hfn w). destruct (fn w) as [[v|e] w1]; cbn [snd] in Hfn.
  - injection Hrun as <-. cbn. nia.
  - destruct (Z.eqb_spec attempt retries) as [->|Hne].
    + injection Hrun as <-. cbn. nia.
    + assert (μ (notify onRetry attempt e delay w1
                   (log ++ [Invoked attempt (Threw e)])).1 ≤ μ w1) as Hn.
      { destruct onRetry as [cb|]; cbn; [by eapply Hcb|lia]. }
      destruct (notify _ _ _ _ _ _) as [w2 log2]. cbn [fst] in Hn.
      apply IH in Hrun. specialize (Hsleep delay w2). nia.
Qed.

(** What the executor rejects with, when it is not its own error, is what
    some invocation of the operation threw. *)
Lemma retry_loop_rejects_thrown fuel retries
    (onRetry : option (@Observer Err World)) attempt delay w log run e :
  retry_loop fn sleep fuel retries onRetry attempt delay w log = Some run →
  outcome run = Reject (Caught e) →
  ∃ w0, (fn w0).1 = Threw e.
Proof.
  revert attempt delay w log.
  induction fuel as [|fuel IH]; intros attempt delay w log Hrun Hout; [done|].
  cbn [retry_loop] in Hrun.
  destruct (attempt <=? retries); [|by injection Hrun as <-].
  destruct (fn w) as [[v|e'] w1] eqn:Hfn; [by injection Hrun as <-|].
  destruct (attempt =? retries).
  - injection Hrun as <-. injection Hout as <-. exists w. by rewrite Hfn.
  - destruct (notify _ _ _ _ _ _) as [w2 log2]. by eapply IH.
Qed.

End BackoffWorld.

Section StoryboardFacts.

Context {File B : Type}.

Abbreviation SWorld := (@State.Store File * B)%type.

Variable generateContent :
  list Api.ReqPart → SWorld → (Api.Response + Js.Value) * SWorld.
Variable sleep : Z → SWorld → SWorld.
Variable now : SWorld → Z.

Abbreviation attempt := (Storyboard.attempt generateContent sleep now).
Abbreviation generate := (Storyboard.generate generateContent sleep now).
Abbreviation task := (Storyboard.task generateContent sleep now).
Abbreviation Machine := (SWorld * list (@Api.Event))%type.

Abbreviation sent := (@Storyboard.sent File B).

(** One invocation of the operation sends two requests at most, and what
    it throws is an [Error] with a message. *)
Lemma attempt_spec scenePrompt aspectRatio (m : Machine) :
  sent (attempt scenePrompt aspectRatio m).2 ≤ sent m + 2 ∧
  (∀ e, (attempt scenePrompt aspectRatio m).1 = Backoff.Threw e →
        Js.message e ≠ []).
Proof.
  destruct m as [w log]. unfold Storyboard.attempt.
  destruct (image_from_total generateContent sleep now fst
              (S (Z.to_nat (Api.MAX_RETRIES - 0))) (scenePrompt w)
              aspectRatio (State.modelImageBase64 w.1)
              (Api.Str (State.productImageBase64 w.1)) 0 w log)
    as [[[r w'] log'] Hrun]; [by vm_compute|].
  unfold Api.generateImageWithPrompt. cbn [default]. rewrite Hrun.
  apply image_from_spec in Hrun
    as (new & k & -> & Hk & Hle & _ & _ & Hrep).
  assert (sent (w', log ++ new) ≤ sent (w, log) + 2) as Hsent.
  { unfold Storyboard.sent. cbn [snd].
    rewrite requests_app, length_app, Hk.
    unfold Api.MAX_RETRIES in Hle. lia. }
  destruct r as [a|e]; cbn [fst snd]; split; try done.
  intros e' [= <-].
  by apply (image_failed_fresh generateContent), Hrep.
Qed.

Lemma generate_spec i scenePrompt aspectRatio (m : Machine) :
  ∃ run,
    generate i scenePrompt aspectRatio m = Some run ∧
    (1 ≤ Backoff.invocations run ≤ 3)%nat ∧
    sent (Backoff.world run) ≤ sent m + 6 ∧
    BackoffTrace.sleeps run
      = BackoffTrace.doubling 2000 (Backoff.invocations run - 1) ∧
    (∀ x, Backoff.outcome run = Backoff.Reject x →
          Storyboard.thrown_message x ≠ []).
Proof.
  unfold Storyboard.generate.
  destruct (retryWithBackoff_total (attempt scenePrompt aspectRatio)
              (Storyboard.pause sleep) (Some 3) (Some 2000)
              (Some (Storyboard.onRetry i)) m) as [run Hrun].
  exists run. split; [done|]. unfold Backoff.retryWithBackoff in Hrun.
  change (default 3 (Some 3)) with 3 in Hrun.
  change (default 1000 (Some 2000)) with 2000 in Hrun.
  pose proof (retry_loop_schedule _ _ _ _ _ _ _ _ _ _ Hrun)
    as (new & Hev & _ & Hsome).
  destruct Hsome as (k & Hk & Hle & Hs & _ & _); [done|].
  cbn [app] in Hev. unfold Backoff.invocations, BackoffTrace.sleeps.
  rewrite Hev, Hk, Hs. cbn [Nat.sub]. rewrite Nat.sub_0_r.
  split; [lia|]. split; [|split; [done|]].
  - assert (sent (Backoff.world run) ≤ sent m + 2 * Z.max 0 (3 - 1 + 1))
      as Hm; [|lia].
    eapply (retry_loop_world_measure (attempt scenePrompt aspectRatio)
              (Storyboard.pause sleep) sent 2); [lia| | | |exact Hrun].
    + intros w. apply attempt_spec.
    + intros d [w log]. unfold Storyboard.sent, Storyboard.pause. cbn [snd].
      rewrite requests_app, length_app. cbn. lia.
    + intros cb a e d [w log] [= <-].
      unfold Storyboard.sent, Storyboard.onRetry. cbn [snd].
      rewrite requests_app, length_app. cbn. lia.
  - intros [e|msg] Hout; cbn.
    + eapply retry_loop_rejects_thrown in Hout as [w0 Hw0]; [|done].
      by apply (proj2 (attempt_spec scenePrompt aspectRatio w0)).
    + apply retry_loop_exits in Hrun; [|done].
      destruct Hrun as [(? & ? & ? & _ & _ & ?)|(? & ? & _ & ?)]; congruence.
Qed.

(** X18. A scene of the image storyboard, generated as line 270 does: the
    operation is invoked three times at most, each invocation sends two
    requests at most, so six in all; between the invocations the executor
    sleeps 2000 and then 4000 milliseconds. *)
Theorem storyboard_scene_cost i scenePrompt aspectRatio (m : Machine) :
  ∃ run,
    generate i scenePrompt aspectRatio m = Some run ∧
    (1 ≤ Backoff.invocations run ≤ 3)%nat ∧
    sent (Backoff.world run) ≤ sent m + 6 ∧
    BackoffTrace.sleeps run
      = take (Backoff.invocations run - 1) [2000; 4000].
Proof.
  destruct (generate_spec i scenePrompt aspectRatio m)
    as (run & Hrun & Hinv & Hsent & Hs & _).
  exists run. rewrite Hs. repeat split; try done; try lia.
  destruct (Backoff.invocations run) as [|[|[|[|n]]]]; try lia; by vm_compute.
Qed.

Lemma task_spec i scenePrompt aspectRatio (m : Machine) :
  ∃ s m' card,
    task i scenePrompt aspectRatio m = Some (s, m', card) ∧
    sent m' ≤ sent m + 6 ∧
    if Js.isWellFormed (scenePrompt m'.1) then
      s = Batch.Fulfils ∧
      match card with
      | Storyboard.ImageCard a =>
          ∃ assets, State.generatedAssetUrls m'.1.1 = assets ++ [a]
      | Storyboard.ErrorCard message => message ≠ []
      | Storyboard.NoCard => False
      end
    else s = Batch.Rejects Js.URIError ∧ card = Storyboard.NoCard.
Proof.
  destruct m as [w log]. unfold Storyboard.task.
  destruct (generate_spec i scenePrompt aspectRatio
              (w, log ++ [Api.Shown (Storyboard.generating_html i)]))
    as (run & -> & _ & Hsent & _ & Hmsg).
  assert (sent (Backoff.world run) ≤ sent (w, log) + 6) as Hsent'.
  { etrans; [exact Hsent|]. unfold Storyboard.sent. cbn [snd].
    rewrite requests_app, length_app. cbn. lia. }
  destruct (Backoff.world run) as [w1 log1].
  destruct (Backoff.outcome run) as [result|error] eqn:Hout.
  - destruct (Js.isWellFormed
                (scenePrompt (Storyboard.pushAsset result w1))) eqn:Hwf;
      eexists _, _, _; (split; [done|]); (split; [done|]);
      cbn [fst]; rewrite Hwf; [|done].
    split; [done|]. by eexists.
  - destruct (Js.isWellFormed (scenePrompt w1)) eqn:Hwf;
      eexists _, _, _; (split; [done|]); (split; [done|]);
      cbn [fst]; rewrite Hwf; [|done].
    split; [done|]. by apply Hmsg.
Qed.

(** X19. The task of a scene lets its promise reject in one case only,
    whatever the backend does: when the prompt that the scene holds at the
    end is not a well-formed string, [encodeURIComponent] throws where the
    card is built, and the promise rejects with its [URIError], with no
    card shown.  Otherwise the promise is fulfilled: either the task has
    pushed the asset on the list of generated assets and shows its card,
    or it shows an error with a message that is not empty. *)
Theorem storyboard_task_settles i scenePrompt aspectRatio (m : Machine) :
  ∃ s m' card,
    task i scenePrompt aspectRatio m = Some (s, m', card) ∧
    if Js.isWellFormed (scenePrompt m'.1) then
      s = Batch.Fulfils ∧
      match card with
      | Storyboard.ImageCard a =>
          ∃ assets, State.generatedAssetUrls m'.1.1 = assets ++ [a]
      | Storyboard.ErrorCard message => message ≠ []
      | Storyboard.NoCard => False
      end
    else s = Batch.Rejects Js.URIError ∧ card = Storyboard.NoCard.
Proof.
  destruct (task_spec i scenePrompt aspectRatio m)
    as (s & m' & card & ? & _ & ?).
  by exists s, m', card.
Qed.

(** The prompts of the scenes are well formed whatever has been typed
    meanwhile. *)
Lemma settlements_fulfil jobs :
  Forall (λ job, ∀ w, Js.isWellFormed (job.1.1.2 w) = true) jobs →
  Storyboard.settlements generateContent sleep now jobs
  = replicate (length jobs) Batch.Fulfils.
Proof.
  induction 1 as [|[[[i scenePrompt] aspectRatio] m] jobs Hwf _ IH]; [done|].
  unfold Storyboard.settlements in *. cbn [omap list_omap].
  destruct (task_spec i scenePrompt aspectRatio m)
    as (s & m' & card & -> & _ & Hs).
  cbn [fst snd] in Hwf. rewrite Hwf in Hs. destruct Hs as [-> _].
  cbn. by rewrite IH.
Qed.

(** X20. The batch of [generateImageStoryboard], when the prompt of each
    scene is a well-formed string whenever it is read: the promise of
    [runWithConcurrency] never rejects, at most three scenes are being
    generated at a time, and a run that goes on until nothing is left to
    happen ends with the promise resolved and every scene started once and
    finished, whatever the backend answered for each scene. *)
Theorem storyboard_batch_resolves jobs s :
  Forall (λ job, ∀ w, Js.isWellFormed (job.1.1.2 w) = true) jobs →
  Batch.reachable Ui.IMAGE_CONCURRENCY_LIMIT
    (Storyboard.settlements generateContent sleep now jobs) s →
  (∀ e, Batch.ctl s ≠ Batch.Rejected e) ∧
  (∀ tr, tr `suffix_of` Batch.trace s →
         (length (Batch.running tr) ≤ 3)%nat) ∧
  (∀ cs s',
     Batch.run Ui.IMAGE_CONCURRENCY_LIMIT cs s = Some s' →
     Batch.quiescent Ui.IMAGE_CONCURRENCY_LIMIT s' →
     Batch.ctl s' = Batch.Resolved ∧
     Batch.starts (Batch.trace s') = reverse (seq 0 (length jobs)) ∧
     (∀ j, (j < length jobs)%nat → j ∈ Batch.finishes (Batch.trace s'))).
Proof.
  intros Hwf. rewrite settlements_fulfil by done. intros Hinv%reachable_inv.
  assert (Batch.never_rejects
            (replicate (length jobs) (@Batch.Fulfils Js.Error))) as Hnr.
  { apply Forall_replicate. done. }
  split; [intros e; by eapply never_rejects_ctl|]. split.
  - intros tr Hsuf.
    pose proof (valid_running_le _ _ tr
                  (valid_suffix _ _ _ _ (Batch.inv_valid _ _ _ Hinv) Hsuf))
      as Hle.
    unfold Batch.window, Ui.IMAGE_CONCURRENCY_LIMIT in Hle. lia.
  - intros cs s' Hrun Hq.
    destruct (never_rejects_resolves _ _ s cs s' Hnr Hinv Hrun Hq)
      as (Hc & Hs & Hf).
    rewrite length_replicate in Hs, Hf. done.
Qed.

End StoryboardFacts.

(** * Speech *)

Section AudioFacts.

Import Audio.

Context {File B : Type}.

Abbreviation AWorld := (@State.Store File * B)%type.

Variable generateSpeech :
  list N → list N → AWorld → (Api.Response + Js.Value) * AWorld.
Variable voiceOverSelectedActor : AWorld → list N.

Abbreviation speak := (generateAudioFromText generateSpeech).
Abbreviation script_task := (Audio.task generateSpeech voiceOverSelectedActor).

Lemma audio_failure_new_Error (msg : list N) :
  msg ≠ [] →
  audio_failure (Js.new_Error msg) = Js.new_Error (Js.lit "Error: " ++ msg).
Proof.
  intros Hmsg. unfold audio_failure. cbn [Js.json Js.message Js.new_Error].
  replace (Api.quota (Js.lit "{}")) with false by (by vm_compute).
  by destruct msg.
Qed.

(** The messages of the [catch] of [generateAudioFromText]. *)
Lemma audio_failure_message (error : Js.Error) :
  Js.message (audio_failure error) = QUOTA_AUDIO ∨
  (∃ m, m ≠ [] ∧ Js.message (audio_failure error) = Js.lit "Error: " ++ m) ∨
  Js.message (audio_failure error) = Js.lit "Failed to generate audio.".
Proof.
  unfold audio_failure. cbn [Js.message Js.new_Error].
  destruct (Api.quota (Js.json error)); [by left|].
  destruct (Js.message error) as [|c m]; cbn [Js.truthy].
  - by right; right.
  - right; left. by exists (c :: m).
Qed.

(** X21. When the answer of the backend has no audio data in the first part
    of its first candidate, be it that a link of the chain is missing,
    [generateAudioFromText] rejects with 'Error: ' followed by the message
    it threw in its [try]. *)
Theorem audio_without_data script voiceName w response w1 :
  generateSpeech script voiceName w = (inl response, w1) →
  audioPart response ≫= Api.inlineData = None →
  speak script voiceName w
  = (Api.Failed
       (Js.new_Error
          (Js.lit "Error: Audio generation failed: No audio data was returned from the API.")),
     w1).
Proof.
  intros Hcall Hnone. unfold generateAudioFromText.
  rewrite Hcall, Hnone. by rewrite audio_failure_new_Error.
Qed.


End AudioFacts.

(** * The statements above at concrete backends *)


(** A file read late for the first of two scenes, after it was removed, a
    third scene added and a prompt typed. *)
Lemma file_read_after_removal_witness :
  Ui.handle (Ui.SceneFileRead 0 tt (Some (Js.lit "aGk=")) (Js.lit "image/png"))
    (foldl (λ st ev, Ui.handle ev st)
       (Ui.handle (Ui.RemoveScene 0) (Ui.after [Ui.AddScene; Ui.AddScene]))
       [Ui.AddScene; Ui.InputScene 2 (Js.lit "pan left")])
  = foldl (λ st ev, Ui.handle ev st)
      (Ui.handle (Ui.RemoveScene 0) (Ui.after [Ui.AddScene; Ui.AddScene]))
      [Ui.AddScene; Ui.InputScene 2 (Js.lit "pan left")].
Proof.
  eapply proj1.
  apply (file_read_after_removal (File := unit)
           (Ui.after [Ui.AddScene; Ui.AddScene]) 0 tt
           (Some (Js.lit "aGk=")) (Js.lit "image/png")
           [Ui.AddScene; Ui.InputScene 2 (Js.lit "pan left")]).
  - by vm_compute.
  - by repeat constructor.
Defined.


(** A backend that answers the first request with text and rejects the
    second with a quota error. *)
Lemma image_retry_failure_wrapped_witness :
  (λ r, r.1.1) <$>
    Api.generateImageWithPrompt (File := unit)
      (λ _ (n : nat),
         match n with
         | O => (inl (Api.mkResponse
                        (Some [Api.Parts [Api.mkPart None (Js.lit "sorry")]])
                        []), 1%nat)
         | _ => (inr (Js.Readable
                        (Js.mkError (Js.lit "quota")
                           (Js.lit "RESOURCE_EXHAUSTED"))), 2%nat)
         end)
      (λ _ n, n) (λ _, 0) (λ _, State.initial)
      (Js.lit "a cat") (Js.lit "1:1") [] Api.Undefined None 0%nat []
  = Some (Api.Failed (Js.new_Error (Js.lit "Error: " ++ Api.QUOTA_IMAGE))).
Proof.
  erewrite (image_retry_failure_wrapped (File := unit)
              (λ _ (n : nat),
                 match n with
                 | O => (inl (Api.mkResponse
                                (Some [Api.Parts
                                         [Api.mkPart None (Js.lit "sorry")]])
                                []), 1%nat)
                 | _ => (inr (Js.Readable
                                (Js.mkError (Js.lit "quota")
                                   (Js.lit "RESOURCE_EXHAUSTED"))), 2%nat)
                 end)
              (λ _ n, n) (λ _, 0) (λ _, State.initial));
    [|reflexivity..].
  by vm_compute.
Defined.

(** An operation that is done at the second poll. *)
Lemma video_polling_witness :
  ∃ new,
    (Api.polls new ≤ 10)%nat ∧
    Api.shown new = Api.progress_html <$> seq 0 (Api.polls new) ∧
    Api.waits new = replicate (Api.polls new) 10000.
Proof.
  edestruct (video_polling (File := unit) (W := nat)
               (λ _ n, n) (λ _, 0)
               (λ _ _ _ _ n, (inl (Api.mkOperation false [] None), n))
               (λ _ n, (inl (Api.mkOperation (1 <=? n)%nat (Js.lit "u") None),
                        S n))
               (λ _ n, (inl (Js.lit "blob:1"), n)) (Js.lit "k")
               10 (State.mkScene 7 None None None []) (Js.lit "a cat")
               (Js.lit "16:9") 0%nat [])
    as (new & _ & Hp & Hs & Hw & _).
  - by vm_compute.
  - exists new. split; [exact Hp|]. split; [exact Hs|exact Hw].
Defined.

(** An operation that no poll finds done. *)
Lemma video_polling_never_gives_up_witness :
  Api.generateVideoForScene (File := unit) (W := unit)
    (λ _ w, w) (λ _, 0)
    (λ _ _ _ _ w, (inl (Api.mkOperation false [] None), w))
    (λ _ w, (inl (Api.mkOperation false [] None), w))
    (λ _ w, (inl (Js.lit "blob:1"), w)) (Js.lit "k")
    5 (State.mkScene 7 None None None []) (Js.lit "a cat") (Js.lit "16:9")
    tt []
  = None.
Proof.
  eapply (video_polling_never_gives_up (File := unit) (W := unit)).
  - reflexivity.
  - reflexivity.
  - intros o v. eexists _, _. split; reflexivity.
Defined.

(** One scene, with a backend that always rejects with [undefined]. *)
Lemma storyboard_batch_resolves_witness :
  (length
     (Batch.running
        (Batch.trace
           (Batch.runWithConcurrency Ui.IMAGE_CONCURRENCY_LIMIT
              (Storyboard.settlements (File := unit) (B := unit)
                 (λ _ w, (inr Js.Undefined, w)) (λ _ w, w) (λ _, 0%Z)
                 [(0%nat, λ _, Js.lit "a cat", Js.lit "1:1",
                   ((State.initial, tt), []))]))))
   ≤ 3)%nat.
Proof.
  apply (proj1 (proj2 (storyboard_batch_resolves (File := unit) (B := unit)
                         (λ _ w, (inr Js.Undefined, w)) (λ _ w, w)
                         (λ _, 0%Z)
                         [(0%nat, λ _, Js.lit "a cat", Js.lit "1:1",
                           ((State.initial, tt), []))]
                         _ ltac:(by repeat constructor)
                         (ex_intro _ [] eq_refl)))).
  by exists [].
Defined.

(** An operation that is done at once, with no link and an error about the
    quota. *)
Lemma video_without_uri_witness :
  Api.generateVideoForScene (File := unit) (W := unit)
    (λ _ w, w) (λ _, 0)
    (λ _ _ _ _ w,
       (inl (Api.mkOperation true [] (Some (Js.lit "quota exceeded"))), w))
    (λ o w, (inl o, w))
    (λ _ w, (inl (Js.lit "blob:1"), w)) (Js.lit "k")
    1 (State.mkScene 7 None None None []) (Js.lit "a cat") (Js.lit "16:9")
    tt []
  = Some (Api.Failed
            (Js.new_Error
               (Js.lit "Error for Scene 7: Video generation failed: quota exceeded")),
          tt, [Api.VideoRequested (Js.lit "a cat")]).
Proof.
  erewrite (video_without_uri (File := unit) (W := unit));
    [|reflexivity..].
  by vm_compute.
Defined.

(** A backend that answers with one candidate whose first part is text. *)
Lemma audio_without_data_witness :
  Audio.generateAudioFromText (File := unit) (B := unit)
    (λ _ _ w,
       (inl (Api.mkResponse
               (Some [Api.Parts [Api.mkPart None (Js.lit "hello")]]) []), w))
    (Js.lit "hello") (Js.lit "Zephyr") (State.initial, tt)
  = (Api.Failed
       (Js.new_Error
          (Js.lit "Error: Audio generation failed: No audio data was returned from the API.")),
     (State.initial, tt)).
Proof.
  eapply (audio_without_data (File := unit) (B := unit)); reflexivity.
Defined.
